(** * Slideshow-to-video renderer: frame timing, cover fitting, compositing

    Shallow embedding of [src/app/page.tsx] (the [createVideo] render loop,
    [drawImageCover] and the handlers of the image list) together with the
    properties stated for it.

    Numbers.  A JavaScript number is modelled by a rational ([Q]).  The two
    products that compute the durations, [duration * 1000] and
    [images.length * duration * 1000], are rounded to binary64 after every
    multiplication ([JS.mul]), as the source evaluates them: their rounding
    decides which ticks pass the guard of [renderFrame], and for a fractional
    duration the second product can exceed [images.length] times the first.
    The remainder [%] and [Math.floor] are exact on doubles and are modelled
    exactly.  The remaining arithmetic (the quotient [currentTime /
    imageDuration], the transition progress, the sizes and offsets of the
    drawn rectangles) is taken at its mathematical value, which the double
    arithmetic approximates to within one rounding per operation.
    Division by zero is [0] in [Q] (it is [Infinity] or [NaN] in JavaScript);
    the exponent range of the doubles is not bounded, so overflow and
    underflow are not modelled.

    Canvas.  The bitmap model samples a picture at the nearest texel and
    paints a pixel when its centre lies in the destination rectangle.  The
    platform smooths scaled pictures and anti-aliases partly covered edge
    pixels in ways the standard leaves open; statements about pixels are
    statements about this model, and they compare frames drawn by the same
    calls or speak of coverage and opacity. *)

From Stdlib Require Import ZArith QArith Qround Qminmax Lia Lqa List String Bool.
From Stdlib Require Import Ascii Qpower.
Import ListNotations.

Open Scope Q_scope.

(** ** JavaScript number operations *)

Module JS.

(** [x < y] on numbers. *)
Definition ltb (x y : Q) : bool := negb (Qle_bool y x).

(** [x > y] on numbers. *)
Definition gtb (x y : Q) : bool := ltb y x.

(** [x >= y] on numbers. *)
Definition geb (x y : Q) : bool := Qle_bool y x.

(** [Math.floor]. *)
Definition floor (x : Q) : Z := Qfloor x.

(** Rounding toward zero, used by the remainder. *)
Definition trunc (x : Q) : Z := Z.quot (Qnum x) (Zpos (Qden x)).

(** [a % b] on numbers: the remainder of the truncated division, which has
    the sign of the dividend. *)
Definition rem (a b : Q) : Q := a - b * inject_Z (trunc (a / b)).

(** [a % b] on integer-valued numbers. *)
Definition remz (a b : Z) : Z := Z.rem a b.

(** Position of the leading bit of a positive number: the [k] with
    [2 ^ k <= x < 2 ^ (k + 1)]. *)
Definition exponent (x : Q) : Z :=
  let k := (Z.log2 (Qnum x) - Z.log2 (Zpos (Qden x)))%Z in
  if Qle_bool (2 ^ k) x then k else (k - 1)%Z.

(** The nearest integer, ties to the even one. *)
Definition roundEven (m : Q) : Z :=
  let q := Qfloor m in
  match Qcompare (m - inject_Z q) (1 # 2) with
  | Lt => q
  | Gt => (q + 1)%Z
  | Eq => if Z.even q then q else (q + 1)%Z
  end.

(** The binary64 number nearest to a positive number: 53 significant bits,
    ties to even. *)
Definition nearest (x : Q) : Q :=
  let e := (exponent x - 52)%Z in
  Qred (inject_Z (roundEven (x / 2 ^ e)) * 2 ^ e).

(** The double that a numeric literal or the result of an operation
    denotes. *)
Definition number (x : Q) : Q :=
  match Qcompare x 0 with
  | Eq => 0
  | Gt => nearest x
  | Lt => - nearest (- x)
  end.

(** [a * b] on doubles. *)
Definition mul (a b : Q) : Q := number (a * b).

(** Exceptions raised by the platform. *)
Inductive error : Type :=
| TypeError
| NotSupportedError
| LoadError.

(** Completion of a computation that may throw. *)
Inductive completion (A : Type) : Type :=
| Normal (a : A)
| Throw (e : error).

Arguments Normal {A} a.
Arguments Throw {A} e.

Definition bind {A B : Type} (c : completion A) (k : A -> completion B)
  : completion B :=
  match c with
  | Normal a => k a
  | Throw e => Throw e
  end.

End JS.

Notation "x <- c ;; k" := (JS.bind c (fun x => k))
  (at level 61, c at next level, right associativity).

(** ** Cover fitting ([drawImageCover], the rectangle it computes) *)

Record Rect : Type := mkRect {
  drawWidth : Q;
  drawHeight : Q;
  offsetX : Q;
  offsetY : Q
}.

(** Lines 175-190 of [drawImageCover]: the destination rectangle for a picture
    of size [imgW] x [imgH] placed in a frame of size [canvasWidth] x
    [canvasHeight]. *)
Definition coverRect (imgW imgH canvasWidth canvasHeight : Q) : Rect :=
  let imgRatio := imgW / imgH in
  let canvasRatio := canvasWidth / canvasHeight in
  if JS.gtb imgRatio canvasRatio then
    let drawHeight := canvasHeight in
    let drawWidth := imgW * (canvasHeight / imgH) in
    let offsetX := (canvasWidth - drawWidth) / 2 in
    let offsetY := 0 in
    mkRect drawWidth drawHeight offsetX offsetY
  else
    let drawWidth := canvasWidth in
    let drawHeight := imgH * (canvasWidth / imgW) in
    let offsetX := 0 in
    let offsetY := (canvasHeight - drawHeight) / 2 in
    mkRect drawWidth drawHeight offsetX offsetY.

(** ** The 2D canvas

    The platform's canvas is modelled at the level the source uses it: a
    bitmap of premultiplied RGBA pixels, a current transformation made of
    scalings and translations, a global alpha, a fill style and the stack of
    saved drawing states.  A pixel is painted by an operation when its centre
    falls in the destination rectangle; pictures are sampled at the nearest
    texel and composited with source-over. *)

Record RGBA : Type := mkRGBA {
  red : Q;
  green : Q;
  blue : Q;
  alpha : Q
}.

(** ['#000']. *)
Definition black : RGBA := mkRGBA 0 0 0 1.

Definition transparent : RGBA := mkRGBA 0 0 0 0.

Definition rgba_eq (p q : RGBA) : Prop :=
  red p == red q /\ green p == green q /\ blue p == blue q /\ alpha p == alpha q.

(** A decoded picture: its pixel size and its texels (straight alpha). *)
Record HTMLImageElement : Type := mkImage {
  width : Z;
  height : Z;
  texel : Z -> Z -> RGBA
}.

(** The transformation [x, y |-> sx * x + tx, sy * y + ty]. *)
Record Matrix : Type := mkMatrix {
  sx : Q;
  sy : Q;
  tx : Q;
  ty : Q
}.

Definition identity : Matrix := mkMatrix 1 1 0 0.

Definition matrix_eq (m n : Matrix) : Prop :=
  sx m == sx n /\ sy m == sy n /\ tx m == tx n /\ ty m == ty n.

Record DrawingState : Type := mkDrawingState {
  saved_ctm : Matrix;
  saved_alpha : Q;
  saved_fill : RGBA
}.

Record Context2D : Type := mkContext {
  fillStyle : RGBA;
  globalAlpha : Q;
  ctm : Matrix;
  stack : list DrawingState;
  bitmap : Z -> Z -> RGBA
}.

Definition canvas_width : Q := 1920.
Definition canvas_height : Q := 1080.

(** The context of a fresh canvas. *)
Definition getContext : Context2D :=
  mkContext black 1 identity [] (fun _ _ => transparent).

(** Source-over compositing of a straight-alpha source colour, weighted by the
    global alpha, onto a premultiplied destination pixel. *)
Definition sourceOver (src : RGBA) (ga : Q) (dst : RGBA) : RGBA :=
  let a := alpha src * ga in
  mkRGBA (red src * a + red dst * (1 - a))
         (green src * a + green dst * (1 - a))
         (blue src * a + blue dst * (1 - a))
         (a + alpha dst * (1 - a)).

(** User-space coordinates of the centre of device pixel [(i, j)]. *)
Definition userX (m : Matrix) (i : Z) : Q := (inject_Z i + (1 # 2) - tx m) / sx m.
Definition userY (m : Matrix) (j : Z) : Q := (inject_Z j + (1 # 2) - ty m) / sy m.

Definition within (lo len u : Q) : bool := Qle_bool lo u && JS.ltb u (lo + len).

Definition inRect (x y w h u v : Q) : bool := within x w u && within y h v.

Definition set_fillStyle (ctx : Context2D) (c : RGBA) : Context2D :=
  mkContext c (globalAlpha ctx) (ctm ctx) (stack ctx) (bitmap ctx).

(** Assigning [globalAlpha]: a value outside [0, 1] is ignored. *)
Definition set_globalAlpha (ctx : Context2D) (a : Q) : Context2D :=
  if Qle_bool 0 a && Qle_bool a 1 then
    mkContext (fillStyle ctx) a (ctm ctx) (stack ctx) (bitmap ctx)
  else ctx.

Definition save (ctx : Context2D) : Context2D :=
  mkContext (fillStyle ctx) (globalAlpha ctx) (ctm ctx)
            (mkDrawingState (ctm ctx) (globalAlpha ctx) (fillStyle ctx) :: stack ctx)
            (bitmap ctx).

Definition restore (ctx : Context2D) : Context2D :=
  match stack ctx with
  | [] => ctx
  | d :: rest =>
      mkContext (saved_fill d) (saved_alpha d) (saved_ctm d) rest (bitmap ctx)
  end.

Definition translate (ctx : Context2D) (x y : Q) : Context2D :=
  let m := ctm ctx in
  mkContext (fillStyle ctx) (globalAlpha ctx)
            (mkMatrix (sx m) (sy m) (tx m + sx m * x) (ty m + sy m * y))
            (stack ctx) (bitmap ctx).

Definition scale (ctx : Context2D) (x y : Q) : Context2D :=
  let m := ctm ctx in
  mkContext (fillStyle ctx) (globalAlpha ctx)
            (mkMatrix (sx m * x) (sy m * y) (tx m) (ty m))
            (stack ctx) (bitmap ctx).

Definition fillRect (ctx : Context2D) (x y w h : Q) : Context2D :=
  mkContext (fillStyle ctx) (globalAlpha ctx) (ctm ctx) (stack ctx)
    (fun i j =>
       if inRect x y w h (userX (ctm ctx) i) (userY (ctm ctx) j)
       then sourceOver (fillStyle ctx) (globalAlpha ctx) (bitmap ctx i j)
       else bitmap ctx i j).

(** The texel of [img] shown at user-space point [(u, v)] when the picture is
    stretched over the rectangle at [(dx, dy)] of size [dw] x [dh]. *)
Definition sample (img : HTMLImageElement) (dx dy dw dh u v : Q) : RGBA :=
  texel img (JS.floor ((u - dx) * inject_Z (width img) / dw))
            (JS.floor ((v - dy) * inject_Z (height img) / dh)).

(** [ctx.drawImage(img, dx, dy, dw, dh)]. *)
Definition drawImage (ctx : Context2D) (img : HTMLImageElement)
    (dx dy dw dh : Q) : Context2D :=
  mkContext (fillStyle ctx) (globalAlpha ctx) (ctm ctx) (stack ctx)
    (fun i j =>
       let u := userX (ctm ctx) i in
       let v := userY (ctm ctx) j in
       if inRect dx dy dw dh u v
       then sourceOver (sample img dx dy dw dh u v) (globalAlpha ctx)
                       (bitmap ctx i j)
       else bitmap ctx i j).

(** [drawImageCover] (lines 169-193).  The picture may be [undefined] (an
    array read out of range), in which case reading [img.width] throws. *)
Definition drawImageCover (ctx : Context2D) (img : option HTMLImageElement)
    (canvasWidth canvasHeight : Q) : JS.completion Context2D :=
  match img with
  | None => JS.Throw JS.TypeError
  | Some img =>
      let r := coverRect (inject_Z (width img)) (inject_Z (height img))
                         canvasWidth canvasHeight in
      JS.Normal (drawImage ctx img (offsetX r) (offsetY r)
                           (drawWidth r) (drawHeight r))
  end.

(** ** The render loop of [createVideo] *)

(** What [createVideo] captures when it starts: the decoded pictures (one per
    selected image, in order, so that [images.length] is the length of
    [loadedImages]), the per-image duration in seconds (a double) and the
    transition style. *)
Record Session : Type := mkSession {
  loadedImages : list HTMLImageElement;
  duration : Q;
  transition : string
}.

Definition images_length (s : Session) : Z := Z.of_nat (List.length (loadedImages s)).

(** Line 88: [images.length * duration * 1000], multiplied from the left. *)
Definition totalDuration (s : Session) : Q :=
  JS.mul (JS.mul (inject_Z (images_length s)) (duration s)) 1000.

Definition fps : Q := 30.
Definition frameDuration : Q := 1000 / fps.
(** Line 91: [duration * 1000]. *)
Definition imageDuration (s : Session) : Q := JS.mul (duration s) 1000.
Definition transitionDuration : Q := 500.

(** [arr[i]] for an integer-valued index: [undefined] out of range. *)
Definition element {A : Type} (arr : list A) (i : Z) : option A :=
  if (i <? 0)%Z then None else nth_error arr (Z.to_nat i).

(** Line 131. *)
Definition transitionProgressAt (s : Session) (timeInCurrentImage : Q) : Q :=
  (timeInCurrentImage - (imageDuration s - transitionDuration))
  / transitionDuration.

(** Lines 133-160: the blend of two pictures for one transition style. *)
Definition compositeFrame (transition : string) (ctx : Context2D)
    (currentImg nextImg : option HTMLImageElement) (transitionProgress : Q)
    : JS.completion Context2D :=
  if String.eqb transition "fade" then
    ctx <- drawImageCover ctx currentImg canvas_width canvas_height ;;
    let ctx := set_globalAlpha ctx transitionProgress in
    ctx <- drawImageCover ctx nextImg canvas_width canvas_height ;;
    JS.Normal (set_globalAlpha ctx 1)
  else if String.eqb transition "slide" then
    let offset := canvas_width * transitionProgress in
    let ctx := save ctx in
    let ctx := translate ctx (- offset) 0 in
    ctx <- drawImageCover ctx currentImg canvas_width canvas_height ;;
    let ctx := restore ctx in
    let ctx := save ctx in
    let ctx := translate ctx (canvas_width - offset) 0 in
    ctx <- drawImageCover ctx nextImg canvas_width canvas_height ;;
    JS.Normal (restore ctx)
  else if String.eqb transition "zoom" then
    let scale_ := 1 + transitionProgress * (3 # 10) in
    let ctx := save ctx in
    let ctx := translate ctx (canvas_width / 2) (canvas_height / 2) in
    let ctx := scale ctx scale_ scale_ in
    let ctx := translate ctx (- canvas_width / 2) (- canvas_height / 2) in
    let ctx := set_globalAlpha ctx (1 - transitionProgress) in
    ctx <- drawImageCover ctx currentImg canvas_width canvas_height ;;
    let ctx := restore ctx in
    let ctx := set_globalAlpha ctx transitionProgress in
    ctx <- drawImageCover ctx nextImg canvas_width canvas_height ;;
    JS.Normal (set_globalAlpha ctx 1)
  else JS.Normal ctx.

(** Lines 122-123: the clear to black. *)
Definition clearFrame (ctx : Context2D) : Context2D :=
  let ctx := set_fillStyle ctx black in
  fillRect ctx 0 0 canvas_width canvas_height.

(** Outcome of one call of [renderFrame]. *)
Inductive Tick : Type :=
| Stopped
    (* [mediaRecorder.stop()] was called and no timer was set *)
| Rescheduled (ctx : Context2D)
    (* a frame was painted and [setTimeout(renderFrame, frameDuration)] ran *)
| Uncaught (e : JS.error).
    (* an exception left the callback before the timer was set *)

(** Line 163 is reached only when the painting did not throw. *)
Definition thenSetTimeout (painted : JS.completion Context2D) : Tick :=
  match painted with
  | JS.Normal ctx => Rescheduled ctx
  | JS.Throw e => Uncaught e
  end.

(** Lines 118-120. *)
Definition currentIndexAt (s : Session) (currentTime : Q) : Z :=
  JS.floor (currentTime / imageDuration s).

Definition nextIndexAt (s : Session) (currentTime : Q) : Z :=
  JS.remz (currentIndexAt s currentTime + 1) (images_length s).

Definition timeInCurrentImageAt (s : Session) (currentTime : Q) : Q :=
  JS.rem currentTime (imageDuration s).

(** [renderFrame] (lines 110-164) at the sampled elapsed time
    [currentTime = Date.now() - startTime]. *)
Definition renderFrame (s : Session) (ctx : Context2D) (currentTime : Q) : Tick :=
  if JS.geb currentTime (totalDuration s) then Stopped
  else
    let currentIndex := currentIndexAt s currentTime in
    let nextIndex := nextIndexAt s currentTime in
    let timeInCurrentImage := timeInCurrentImageAt s currentTime in
    let ctx := clearFrame ctx in
    let currentImg := element (loadedImages s) currentIndex in
    let nextImg := element (loadedImages s) nextIndex in
    thenSetTimeout
      (if JS.ltb timeInCurrentImage (imageDuration s - transitionDuration) then
         drawImageCover ctx currentImg canvas_width canvas_height
       else
         let transitionProgress := transitionProgressAt s timeInCurrentImage in
         compositeFrame (transition s) ctx currentImg nextImg transitionProgress).

(** What the session does, as seen from outside. *)
Inductive Event : Type :=
| Frame (pixels : Z -> Z -> RGBA)
| SetTimeout (delay : Q)
| RecorderStop
| Exception (e : JS.error).

(** The loop started by the first call of [renderFrame]: every call samples
    the clock once; [clock] lists the successive samples.  When the samples
    run out the last timer is still pending. *)
Fixpoint run (s : Session) (ctx : Context2D) (clock : list Q) : list Event :=
  match clock with
  | [] => []
  | currentTime :: later =>
      match renderFrame s ctx currentTime with
      | Stopped => [RecorderStop]
      | Rescheduled ctx' =>
          Frame (bitmap ctx') :: SetTimeout frameDuration :: run s ctx' later
      | Uncaught e => [Exception e]
      end
  end.

Definition isStop (e : Event) : bool :=
  match e with RecorderStop => true | _ => false end.

Definition isFrame (e : Event) : bool :=
  match e with Frame _ => true | _ => false end.


(** Number of entries of a list that satisfy a test. *)
Definition count {A : Type} (f : A -> bool) (l : list A) : nat :=
  List.length (filter f l).

(** ** [createVideo]: the recorder and the page state *)

Record Blob : Type := mkBlob {
  size : nat;
  type : string
}.

(** The two pieces of page state that report on a session. *)
Record HomeState : Type := mkHome {
  isCreating : bool;
  videoUrl : string
}.

(** The page shows the "creating" banner while [isCreating] holds and the
    finished video with its download button when [videoUrl] is not empty
    (lines 277-293). *)
Definition showsLoading (st : HomeState) : bool := isCreating st.

Definition showsVideo (st : HomeState) : bool :=
  negb (String.eqb (videoUrl st) "").

(** What the platform does during one session. *)
Record Platform : Type := mkPlatform {
  canvas_mounted : bool;
    (* [canvasRef.current] is not null *)
  context_available : bool;
    (* [getContext('2d')] is not null *)
  recorder_constructs : bool;
    (* [new MediaRecorder(stream, options)] does not throw *)
  recorder_starts : bool;
    (* [mediaRecorder.start()] does not throw *)
  images_load : bool;
    (* every [loadImage] promise resolves *)
  recorded : list Blob;
    (* the [dataavailable] events delivered before the [stop] event *)
  clock : list Q
    (* the elapsed times sampled by the successive calls of [renderFrame] *)
}.

(** Lines 73-77. *)
Definition ondataavailable (chunks : list Blob) (data : Blob) : list Blob :=
  if (0 <? size data)%nat then chunks ++ [data] else chunks.

(** [new Blob(chunks, { type: 'video/webm' })]. *)
Definition newBlob (chunks : list Blob) (ty : string) : Blob :=
  mkBlob (fold_right (fun b n => (size b + n)%nat) 0%nat chunks) ty.

(** What a session leaves behind: the page state and the blob that the
    published URL designates, if one was published. *)
Record Outcome : Type := mkOutcome {
  home : HomeState;
  artifact : option Blob
}.

(** Lines 79-84. *)
Definition onstop (createObjectURL : Blob -> string) (chunks : list Blob)
    (st : HomeState) : Outcome :=
  let blob := newBlob chunks "video/webm" in
  let url := createObjectURL blob in
  let st := mkHome (isCreating st) url in
  let st := mkHome false (videoUrl st) in
  mkOutcome st (Some blob).

(** [createVideo] (lines 53-167) followed to the end of the session.  An
    exception or a rejected promise ends the asynchronous function; nothing
    catches it and the page state stays as it was at that point. *)
Definition createVideo (createObjectURL : Blob -> string) (p : Platform)
    (s : Session) (st : HomeState) : Outcome :=
  if (images_length s =? 0)%Z || negb (canvas_mounted p) then mkOutcome st None
  else
    let st := mkHome true (videoUrl st) in
    let st := mkHome (isCreating st) "" in
    if negb (context_available p) then mkOutcome st None
    else if negb (recorder_constructs p) then mkOutcome st None
    else
      let chunks := fold_left ondataavailable (recorded p) [] in
      if negb (recorder_starts p) then mkOutcome st None
      else if negb (images_load p) then mkOutcome st None
      else if existsb isStop (run s getContext (clock p))
           then onstop createObjectURL chunks st
           else mkOutcome st None.

(** The sink did not start. *)
Definition sinkFailsToStart (p : Platform) : bool :=
  negb (recorder_constructs p) || negb (recorder_starts p).

(** The sink delivered no data. *)
Definition sinkProducesNothing (p : Platform) : bool :=
  forallb (fun b => (size b =? 0)%nat) (recorded p).

(** The session ended presenting a finished video that holds no data. *)
Definition completesWithoutArtifact (o : Outcome) : bool :=
  negb (showsLoading (home o)) && showsVideo (home o)
  && match artifact o with
     | Some b => (size b =? 0)%nat
     | None => true
     end.

(** The failure policy as the specification words it: a session whose sink
    did not start, or delivered nothing, is never presented as a finished
    video without data. *)
Definition sinkFailurePolicy : Prop :=
  forall (createObjectURL : Blob -> string) (p : Platform) (s : Session)
         (st : HomeState),
    (forall b, createObjectURL b <> ""%string) ->
    sinkFailsToStart p = true \/ sinkProducesNothing p = true ->
    completesWithoutArtifact (createVideo createObjectURL p s st) = false.

(** A platform on which everything works but the recorder delivers no data;
    the clock is sampled at 0, 4000 and 9001 ms. *)
Definition silentRecorder : Platform :=
  mkPlatform true true true true true [] [0; 4000; 9001].

(** A platform whose recorder cannot be constructed. *)
Definition noRecorder : Platform :=
  mkPlatform true true false true true [] [0; 4000; 9001].

(** ** Properties in the words of the specification *)

Module Spec.

(** [floor(t / perImageDurationMs)]. *)
Definition currentIndex (perImageDurationMs t : Q) : Z :=
  Qfloor (t / perImageDurationMs).

(** [(currentIndex + 1) mod numImages]. *)
Definition nextIndex (numImages : Z) (currentIndex : Z) : Z :=
  ((currentIndex + 1) mod numImages)%Z.

(** [t mod perImageDurationMs]. *)
Definition timeInImage (perImageDurationMs t : Q) : Q :=
  t - perImageDurationMs * inject_Z (Qfloor (t / perImageDurationMs)).

(** [(timeInImage - (perImageDurationMs - transitionDurationMs)) /
    transitionDurationMs]. *)
Definition progress (perImageDurationMs transitionDurationMs timeInImage : Q)
  : Q :=
  (timeInImage - (perImageDurationMs - transitionDurationMs))
  / transitionDurationMs.


End Spec.

(** The context between two frames: no transformation, full opacity. *)
Definition ready (ctx : Context2D) : Prop :=
  ctm ctx = identity /\ globalAlpha ctx = 1.

(** A picture with positive pixel dimensions. *)
Definition wellSized (img : HTMLImageElement) : Prop :=
  (0 < width img)%Z /\ (0 < height img)%Z.

(** A picture without transparency. *)
Definition opaque (img : HTMLImageElement) : Prop :=
  forall x y, alpha (texel img x y) == 1.

(** Pixel [(i, j)] lies in the output frame. *)
Definition inFrame (i j : Z) : Prop :=
  (0 <= i < 1920)%Z /\ (0 <= j < 1080)%Z.

(** Two contexts hold pixel-identical frames. *)
Definition sameFrame (c1 c2 : Context2D) : Prop :=
  forall i j, inFrame i j -> rgba_eq (bitmap c1 i j) (bitmap c2 i j).

(** The frame that shows one picture alone (lines 122-123 and 129). *)
Definition pictureAlone (ctx : Context2D) (img : HTMLImageElement)
  : JS.completion Context2D :=
  drawImageCover (clearFrame ctx) (Some img) canvas_width canvas_height.

(** The frame of a transition at a given progress (lines 122-123, 133-160). *)
Definition transitionFrame (style : string) (ctx : Context2D)
    (currentImg nextImg : HTMLImageElement) (progress : Q)
  : JS.completion Context2D :=
  compositeFrame style (clearFrame ctx) (Some currentImg) (Some nextImg) progress.

(** Two paintings both succeed and give pixel-identical frames. *)
Definition sameResult (a b : JS.completion Context2D) : Prop :=
  match a, b with
  | JS.Normal c1, JS.Normal c2 => sameFrame c1 c2
  | _, _ => False
  end.

(** ** The boundary policy of transitions *)

(** At progress 0 the blend shows the current picture alone. *)
Definition continuousAtStart (style : string) (ctx : Context2D)
    (currentImg nextImg : HTMLImageElement) : Prop :=
  sameResult (transitionFrame style ctx currentImg nextImg 0)
             (pictureAlone ctx currentImg).

(** At progress 1 the blend shows the next picture alone. *)
Definition continuousAtEnd (style : string) (ctx : Context2D)
    (currentImg nextImg : HTMLImageElement) : Prop :=
  sameResult (transitionFrame style ctx currentImg nextImg 1)
             (pictureAlone ctx nextImg).

Definition knownStyle (style : string) : Prop :=
  style = "fade"%string \/ style = "slide"%string \/ style = "zoom"%string.

(** The policy as the specification words it: every style, every pair of
    pictures, both ends. *)
Definition boundaryPolicy : Prop :=
  forall (style : string) (ctx : Context2D)
         (currentImg nextImg : HTMLImageElement),
    knownStyle style -> ready ctx ->
    wellSized currentImg -> wellSized nextImg ->
    continuousAtStart style ctx currentImg nextImg
    /\ continuousAtEnd style ctx currentImg nextImg.

(** A picture that is not relatively wider than the frame. *)
Definition notWider (img : HTMLImageElement) : Prop :=
  inject_Z (width img) / inject_Z (height img) <= canvas_width / canvas_height.

(** ** Sample programs *)

(** A picture of one colour. *)
Definition solid (w h : Z) (c : RGBA) : HTMLImageElement :=
  mkImage w h (fun _ _ => c).

Definition red_ : RGBA := mkRGBA 1 0 0 1.
Definition green_ : RGBA := mkRGBA 0 1 0 1.
Definition blue_ : RGBA := mkRGBA 0 0 1 1.

Definition landscape : HTMLImageElement := solid 1920 1080 red_.
Definition panorama : HTMLImageElement := solid 3840 1080 blue_.
Definition portrait : HTMLImageElement := solid 1080 1920 green_.

(** A half-transparent green picture of the size of the frame. *)
Definition glass : HTMLImageElement := solid 1920 1080 (mkRGBA 0 1 0 (1 # 2)).

(** Three pictures, three seconds each. *)
Definition threePictures (A B C : HTMLImageElement) (style : string) : Session :=
  mkSession [A; B; C] 3 style.

(** One picture shown for 0.3 s: shorter than the transition. *)
Definition shortProgram : Session :=
  mkSession [landscape] (JS.number (3 # 10)) "fade".

(** Three pictures, 1.1 s each. *)
Definition fractionalProgram (A B C : HTMLImageElement) (style : string)
  : Session :=
  mkSession [A; B; C] (JS.number (11 # 10)) style.

(** Two pictures with the duration field set to -1. *)
Definition negativeProgram : Session :=
  mkSession [landscape; panorama] (-1) "fade".


(** ** The list of selected images (lines 19-51) *)

(** What the page reads of a [File]. *)
Record File : Type := mkFile {
  file_name : string;
  file_type : string
}.

Record ImageFile : Type := mkImageFile {
  file : File;
  url : string
}.

(** [file.type.startsWith('image/')]. *)
Definition isImage (f : File) : bool := String.prefix "image/" (file_type f).

(** [files.map(file => ({ file, url: URL.createObjectURL(file) }))]: every
    call of [URL.createObjectURL] mints a new URL; [mint k] is the URL of the
    [k]-th call on this page and [next] counts the calls made so far. *)
Fixpoint createObjectURLs (mint : nat -> string) (next : nat)
    (files : list File) : list ImageFile * nat :=
  match files with
  | [] => ([], next)
  | f :: rest =>
      let newImage := mkImageFile f (mint next) in
      let (others, next') := createObjectURLs mint (S next) rest in
      (newImage :: others, next')
  end.

(** [addImages] (lines 24-31): the new state of [images] and the number of
    URLs minted so far. *)
Definition addImages (mint : nat -> string) (next : nat)
    (prev : list ImageFile) (files : list File) : list ImageFile * nat :=
  let imageFiles := filter isImage files in
  let (newImages, next') := createObjectURLs mint next imageFiles in
  (prev ++ newImages, next').

(** [handleFileSelect] (lines 19-22): [e.target.files] may be [null]. *)
Definition handleFileSelect (mint : nat -> string) (next : nat)
    (prev : list ImageFile) (targetFiles : option (list File))
  : list ImageFile * nat :=
  let files := match targetFiles with Some l => l | None => [] end in
  addImages mint next prev files.

(** [arr.filter((_, i) => test(i))]: the entries whose position passes. *)
Definition filterByIndex {A : Type} (test : nat -> bool) (arr : list A)
  : list A :=
  map snd (filter (fun entry => test (fst entry))
                  (combine (seq 0 (List.length arr)) arr)).

(** [removeImage] (lines 49-51). *)
Definition removeImage (index : nat) (prev : list ImageFile) : list ImageFile :=
  filterByIndex (fun i => negb (i =? index)%nat) prev.

(** A [classList]: class names in order, none twice. *)
Definition classList_add (c : string) (classes : list string) : list string :=
  if existsb (String.eqb c) classes then classes else classes ++ [c].

Definition classList_remove (c : string) (classes : list string) : list string :=
  filter (fun c' => negb (String.eqb c c')) classes.

(** [handleDragOver], [handleDragLeave] and [handleDrop] (lines 33-47), on the
    class list of the drop area and the list of images. *)
Definition handleDragOver (classes : list string) : list string :=
  classList_add "dragover" classes.

Definition handleDragLeave (classes : list string) : list string :=
  classList_remove "dragover" classes.

Definition handleDrop (mint : nat -> string) (next : nat)
    (classes : list string) (prev : list ImageFile) (dropped : list File)
  : list string * (list ImageFile * nat) :=
  (classList_remove "dragover" classes, addImages mint next prev dropped).

(** Every image of the list has a URL of its own, minted before [next]. *)
Definition urlsDistinct (mint : nat -> string) (next : nat)
    (images : list ImageFile) : Prop :=
  NoDup (map url images)
  /\ forall img, In img images -> exists k, (k < next)%nat /\ url img = mint k.

(** [downloadVideo] (lines 195-201): the link that is clicked, if any. *)
Definition downloadVideo (st : HomeState) : option (string * string) :=
  if String.eqb (videoUrl st) "" then None
  else Some (videoUrl st, "video.webm"%string).

(** The create button is disabled while a session runs or no image is
    selected (line 268). *)
Definition createDisabled (st : HomeState) (images : list ImageFile) : bool :=
  isCreating st || (List.length images =? 0)%nat.

(** Sum of the sizes of blobs. *)
Definition totalSize (blobs : list Blob) : nat :=
  fold_right (fun b n => (size b + n)%nat) 0%nat blobs.

(** Componentwise mix of two pixels: [(1 - p) * a + p * b]. *)
Definition mix (p : Q) (a b : RGBA) : RGBA :=
  mkRGBA ((1 - p) * red a + p * red b)
         ((1 - p) * green a + p * green b)
         ((1 - p) * blue a + p * blue b)
         ((1 - p) * alpha a + p * alpha b).

(** Sample files. *)
Definition photo : File := mkFile "beach.png" "image/png".
Definition notes : File := mkFile "notes.txt" "text/plain".
Definition scan : File := mkFile "scan.jpg" "image/jpeg".

(** Sample URL minting: the [k]-th URL is ["blob:"] followed by [k] marks. *)
Fixpoint marks (k : nat) : string :=
  match k with
  | O => ""%string
  | S k' => String "x"%char (marks k')
  end.

Definition sampleMint (k : nat) : string := ("blob:" ++ marks k)%string.


(** A platform whose canvas gives no 2D context. *)
Definition noContext : Platform :=
  mkPlatform true false true true true [] [0; 4000; 9001].


(** ** Number facts *)

Section NumberFacts.

Lemma ltb_lt (x y : Q) : JS.ltb x y = true <-> x < y.
Proof.
  unfold JS.ltb. rewrite negb_true_iff.
  destruct (Qle_bool y x) eqn:E.
  - apply Qle_bool_iff in E. split; [discriminate | intros H; exfalso; lra].
  - split; [intros _ | reflexivity].
    apply Qnot_le_lt. intros H. apply Qle_bool_iff in H. congruence.
Qed.

Lemma ltb_ge (x y : Q) : JS.ltb x y = false <-> y <= x.
Proof.
  unfold JS.ltb. rewrite negb_false_iff. apply Qle_bool_iff.
Qed.

Lemma gtb_gt (x y : Q) : JS.gtb x y = true <-> y < x.
Proof. apply ltb_lt. Qed.

Lemma gtb_le (x y : Q) : JS.gtb x y = false <-> x <= y.
Proof. apply ltb_ge. Qed.

Lemma geb_ge (x y : Q) : JS.geb x y = true <-> y <= x.
Proof. apply Qle_bool_iff. Qed.

Lemma geb_lt (x y : Q) : JS.geb x y = false <-> x < y.
Proof.
  unfold JS.geb. destruct (Qle_bool y x) eqn:E.
  - apply Qle_bool_iff in E. split; [discriminate | intros H; exfalso; lra].
  - split; [intros _ | reflexivity].
    apply Qnot_le_lt. intros H. apply Qle_bool_iff in H. congruence.
Qed.

(** Cross-multiplication of a comparison of two ratios. *)
Lemma ratio_lt_cross (a b c d : Q) :
  0 < b -> 0 < d -> (a / b < c / d <-> a * d < c * b).
Proof.
  intros Hb Hd. split; intros H.
  - apply (Qmult_lt_r _ _ (/ b * / d)).
    + apply Qmult_lt_0_compat; apply Qinv_lt_0_compat; assumption.
    + setoid_replace (a * d * (/ b * / d)) with (a / b) by (field; split; lra).
      setoid_replace (c * b * (/ b * / d)) with (c / d) by (field; split; lra).
      exact H.
  - apply (Qmult_lt_r _ _ (/ b * / d)) in H.
    + setoid_replace (a * d * (/ b * / d)) with (a / b) in H
        by (field; split; lra).
      setoid_replace (c * b * (/ b * / d)) with (c / d) in H
        by (field; split; lra).
      exact H.
    + apply Qmult_lt_0_compat; apply Qinv_lt_0_compat; assumption.
Qed.

Lemma ratio_le_cross (a b c d : Q) :
  0 < b -> 0 < d -> (a / b <= c / d <-> a * d <= c * b).
Proof.
  intros Hb Hd. split; intros H.
  - apply Qnot_lt_le. intros C. apply (ratio_lt_cross c d a b) in C; lra.
  - apply Qnot_lt_le. intros C. apply (ratio_lt_cross c d a b) in C; lra.
Qed.

Lemma half_eq (x : Q) : x / 2 == x * (1 # 2).
Proof. reflexivity. Qed.

(** The remainder has the sign of the dividend; the floor rounds down. *)
Example rem_of_negative : JS.rem (-7) 3 == -1.
Proof. reflexivity. Qed.

Example rem_of_fraction : JS.rem 2800 (5 # 2) == 0.
Proof. reflexivity. Qed.

Example floor_of_negative : JS.floor (-7 / 3) = (-3)%Z.
Proof. reflexivity. Qed.

(** Reads outside an array give [undefined]. *)
Example element_past_end : element [landscape; panorama] 2 = None.
Proof. reflexivity. Qed.

Example element_negative : element [landscape; panorama] (-1) = None.
Proof. reflexivity. Qed.

End NumberFacts.

(** Linear arithmetic with halves. *)
Ltac lra_half := rewrite ?half_eq in *; lra.

(** ** Cover fitting *)

Section CoverFit.

Variables pw ph fw fh : Q.
Hypothesis pw_pos : 0 < pw.
Hypothesis ph_pos : 0 < ph.
Hypothesis fw_pos : 0 < fw.
Hypothesis fh_pos : 0 < fh.

Lemma coverRect_wide :
  fw / fh < pw / ph ->
  coverRect pw ph fw fh
  = mkRect (pw * (fh / ph)) fh ((fw - pw * (fh / ph)) / 2) 0.
Proof.
  intros H. unfold coverRect.
  apply gtb_gt in H. rewrite H. reflexivity.
Qed.

Lemma coverRect_tall :
  pw / ph <= fw / fh ->
  coverRect pw ph fw fh
  = mkRect fw (ph * (fw / pw)) 0 ((fh - ph * (fw / pw)) / 2).
Proof.
  intros H. unfold coverRect.
  apply gtb_le in H. rewrite H. reflexivity.
Qed.

Lemma scaled_width_covers : fw / fh < pw / ph -> fw <= pw * (fh / ph).
Proof.
  intros H. apply (proj1 (ratio_lt_cross fw fh pw ph fh_pos ph_pos)) in H.
  setoid_replace (pw * (fh / ph)) with (pw * fh / ph) by (field; lra).
  apply Qle_shift_div_l; [assumption | lra].
Qed.

Lemma scaled_height_covers : pw / ph <= fw / fh -> fh <= ph * (fw / pw).
Proof.
  intros H. apply (proj1 (ratio_le_cross pw ph fw fh ph_pos fh_pos)) in H.
  setoid_replace (ph * (fw / pw)) with (fw * ph / pw) by (field; lra).
  apply Qle_shift_div_l; [assumption | lra].
Qed.

(** The rectangle is at least as large as the frame and contains it. *)
Lemma coverRect_bounds :
  let r := coverRect pw ph fw fh in
  fw <= drawWidth r /\ fh <= drawHeight r
  /\ offsetX r <= 0 /\ fw <= offsetX r + drawWidth r
  /\ offsetY r <= 0 /\ fh <= offsetY r + drawHeight r.
Proof using pw_pos ph_pos fw_pos fh_pos.
  destruct (Qlt_le_dec (fw / fh) (pw / ph)) as [H | H].
  - rewrite (coverRect_wide H). cbn [drawWidth drawHeight offsetX offsetY].
    pose proof (scaled_width_covers H) as Hw.
    clear H. set (w := pw * (fh / ph)) in *. clearbody w.
    repeat split; lra_half.
  - rewrite (coverRect_tall H). cbn [drawWidth drawHeight offsetX offsetY].
    pose proof (scaled_height_covers H) as Hh.
    clear H. set (h := ph * (fw / pw)) in *. clearbody h.
    repeat split; lra_half.
Qed.

End CoverFit.

(** C5. For a picture and a frame with strictly positive sizes, the rectangle
    computed by [drawImageCover] is at least as wide and as high as the frame
    (so it is never smaller in both directions at once), and it contains the
    frame: no border is left on any side. *)
Theorem coverRect_covers_frame (pw ph fw fh : Q) :
  0 < pw -> 0 < ph -> 0 < fw -> 0 < fh ->
  let r := coverRect pw ph fw fh in
  ~ (drawWidth r < fw /\ drawHeight r < fh)
  /\ fw <= drawWidth r /\ fh <= drawHeight r
  /\ offsetX r <= 0 /\ fw <= offsetX r + drawWidth r
  /\ offsetY r <= 0 /\ fh <= offsetY r + drawHeight r.
Proof.
  intros Hpw Hph Hfw Hfh r.
  pose proof (coverRect_bounds pw ph fw fh Hpw Hph Hfw Hfh) as B. cbv zeta in B.
  fold r in B. destruct B as (B1 & B2 & B3 & B4 & B5 & B6).
  repeat split; try assumption.
  intros [C _]. lra.
Qed.

Lemma coverRect_covers_frame_witness :
  let r := coverRect 4000 3000 1920 1080 in
  ~ (drawWidth r < 1920 /\ drawHeight r < 1080)
  /\ 1920 <= drawWidth r /\ 1080 <= drawHeight r
  /\ offsetX r <= 0 /\ 1920 <= offsetX r + drawWidth r
  /\ offsetY r <= 0 /\ 1080 <= offsetY r + drawHeight r.
Proof.
  apply (coverRect_covers_frame 4000 3000 1920 1080); reflexivity.
Defined.

(** C6. For positive sizes the rectangle is exactly: when the picture is
    relatively wider than the frame, the frame height, the width scaled by
    [frameHeight / pictureHeight], centred horizontally, at the top; otherwise
    the frame width, the height scaled by [frameWidth / pictureWidth], at the
    left, centred vertically. *)
Theorem coverRect_formula (pw ph fw fh : Q) :
  0 < pw -> 0 < ph -> 0 < fw -> 0 < fh ->
  let r := coverRect pw ph fw fh in
  (pw / ph > fw / fh ->
     drawHeight r = fh
     /\ drawWidth r = pw * (fh / ph)
     /\ offsetX r = (fw - drawWidth r) / 2
     /\ offsetY r = 0)
  /\ (~ pw / ph > fw / fh ->
     drawWidth r = fw
     /\ drawHeight r = ph * (fw / pw)
     /\ offsetX r = 0
     /\ offsetY r = (fh - drawHeight r) / 2).
Proof.
  intros Hpw Hph Hfw Hfh r. split; intros H.
  - subst r. rewrite (coverRect_wide pw ph fw fh H). repeat split.
  - apply Qnot_lt_le in H. subst r. rewrite (coverRect_tall pw ph fw fh H).
    repeat split.
Qed.

Lemma coverRect_formula_witness :
  let r := coverRect 4000 3000 1920 1080 in
  (4000 / 3000 > 1920 / 1080 ->
     drawHeight r = 1080
     /\ drawWidth r = 4000 * (1080 / 3000)
     /\ offsetX r = (1920 - drawWidth r) / 2
     /\ offsetY r = 0)
  /\ (~ 4000 / 3000 > 1920 / 1080 ->
     drawWidth r = 1920
     /\ drawHeight r = 3000 * (1920 / 4000)
     /\ offsetX r = 0
     /\ offsetY r = (1080 - drawHeight r) / 2).
Proof.
  apply (coverRect_formula 4000 3000 1920 1080); reflexivity.
Defined.

(** ** Rounding to doubles *)

Lemma roundEven_nonneg (m : Q) : 0 <= m -> (0 <= JS.roundEven m)%Z.
Proof.
  intros H. unfold JS.roundEven.
  pose proof (Qfloor_resp_le 0 m H) as F. change (Qfloor 0) with 0%Z in F.
  destruct (Qcompare _ _); [destruct (Z.even _) | | ]; lia.
Qed.

Lemma nearest_nonneg (x : Q) : 0 <= x -> 0 <= JS.nearest x.
Proof.
  intros H. unfold JS.nearest. rewrite Qred_correct.
  assert (0 < 2 ^ (JS.exponent x - 52)) as P
    by (apply Qpower_0_lt; reflexivity).
  apply Qmult_le_0_compat; [ | lra].
  change 0 with (inject_Z 0). rewrite <- Zle_Qle.
  apply roundEven_nonneg. apply Qle_shift_div_l; [exact P | lra].
Qed.

(** Rounding keeps the sign. *)
Lemma number_nonneg (x : Q) : 0 <= x -> 0 <= JS.number x.
Proof.
  intros H. unfold JS.number. destruct (Qcompare_spec x 0) as [E | L | G].
  - apply Qle_refl.
  - exfalso. lra.
  - apply nearest_nonneg. exact H.
Qed.

Lemma number_nonpos (x : Q) : x <= 0 -> JS.number x <= 0.
Proof.
  intros H. unfold JS.number. destruct (Qcompare_spec x 0) as [E | L | G].
  - apply Qle_refl.
  - assert (0 <= JS.nearest (- x)) as N by (apply nearest_nonneg; lra). lra.
  - exfalso. lra.
Qed.

(** The doubles of 0.1 and 1.1, and integers below 2^53, which are doubles. *)
Example number_tenth :
  JS.number (1 # 10) = 3602879701896397 # 36028797018963968.
Proof. vm_compute. reflexivity. Qed.

Example number_eleven_tenths :
  JS.number (11 # 10) = 2476979795053773 # 2251799813685248.
Proof. vm_compute. reflexivity. Qed.

Example number_integer : JS.number 3000 = 3000.
Proof. vm_compute. reflexivity. Qed.

Example number_ties_to_even :
  JS.number 9007199254740993 = 9007199254740992
  /\ JS.number 9007199254740995 = 9007199254740996.
Proof. split; vm_compute; reflexivity. Qed.

(** [0.1 * 3] is not [0.3], as every JavaScript console shows. *)
Example three_tenths :
  JS.number (3 # 10) < JS.mul (JS.number (1 # 10)) 3.
Proof. vm_compute. reflexivity. Qed.

(** ** The remainder *)

(** On a non-negative quotient, rounding toward zero is rounding down. *)
Lemma trunc_is_floor (x : Q) : 0 <= x -> JS.trunc x = Qfloor x.
Proof.
  destruct x as [n d]. unfold Qle, JS.trunc, Qfloor. cbn [Qnum Qden].
  intros H. apply Z.quot_div_nonneg; lia.
Qed.

(** On a non-positive quotient, rounding toward zero rounds up. *)
Lemma trunc_of_nonpos (x : Q) : x <= 0 -> x <= inject_Z (JS.trunc x).
Proof.
  intros H.
  assert (JS.trunc x = (- Qfloor (- x))%Z) as E.
  { destruct x as [n d]. unfold Qle in H. cbn [Qnum Qden] in H.
    unfold JS.trunc, Qfloor, Qopp. cbn [Qnum Qden].
    rewrite <- (Z.quot_div_nonneg (- n) (Z.pos d)) by lia.
    rewrite Z.quot_opp_l by lia. lia. }
  rewrite E, inject_Z_opp.
  pose proof (Qfloor_le (- x)) as F. lra.
Qed.

Lemma quotient_of_nonneg (t d : Q) : 0 <= d -> 0 <= t -> 0 <= t / d.
Proof.
  intros D T. unfold Qdiv. apply Qmult_le_0_compat; [exact T | ].
  apply Qinv_le_0_compat. exact D.
Qed.

Lemma rem_is_mod (t d : Q) :
  0 <= d -> 0 <= t -> JS.rem t d = t - d * inject_Z (Qfloor (t / d)).
Proof.
  intros D T. unfold JS.rem.
  rewrite (trunc_is_floor _ (quotient_of_nonneg t d D T)). reflexivity.
Qed.

Lemma rem_bounds (t d : Q) :
  0 < d -> 0 <= t -> 0 <= JS.rem t d /\ JS.rem t d < d.
Proof.
  intros D T. rewrite rem_is_mod by lra.
  pose proof (Qfloor_le (t / d)) as L.
  pose proof (Qlt_floor (t / d)) as U.
  rewrite inject_Z_plus in U.
  assert (t == d * (t / d)) as E by (field; lra).
  set (f := inject_Z (Qfloor (t / d))) in *. clearbody f.
  set (x := t / d) in *. clearbody x.
  change (inject_Z 1) with 1 in U.
  split; nra.
Qed.

Lemma rem_nonneg (t d : Q) : 0 <= d -> 0 <= t -> 0 <= JS.rem t d.
Proof.
  intros D T. destruct (Qlt_le_dec 0 d) as [P | Z].
  - apply rem_bounds; assumption.
  - assert (d == 0) as E by lra. unfold JS.rem.
    generalize (inject_Z (JS.trunc (t / d))). intros z.
    rewrite E. lra.
Qed.



(** ** The durations *)

Lemma images_length_nonneg (s : Session) : (0 <= images_length s)%Z.
Proof. unfold images_length. lia. Qed.

Lemma images_length_nonneg_Q (s : Session) : 0 <= inject_Z (images_length s).
Proof.
  change 0 with (inject_Z 0). rewrite <- Zle_Qle. apply images_length_nonneg.
Qed.

Lemma totalDuration_nonpos (s : Session) :
  duration s <= 0 -> totalDuration s <= 0.
Proof.
  intros D. unfold totalDuration, JS.mul.
  pose proof (images_length_nonneg_Q s) as N.
  apply number_nonpos.
  assert (JS.number (inject_Z (images_length s) * duration s) <= 0) as A.
  { apply number_nonpos.
    set (n := inject_Z (images_length s)) in *. clearbody n.
    set (d := duration s) in *. clearbody d. nra. }
  lra.
Qed.

Lemma totalDuration_nonneg (s : Session) :
  0 <= duration s -> 0 <= totalDuration s.
Proof.
  intros D. unfold totalDuration, JS.mul.
  pose proof (images_length_nonneg_Q s) as N.
  apply number_nonneg.
  assert (0 <= JS.number (inject_Z (images_length s) * duration s)) as A.
  { apply number_nonneg. apply Qmult_le_0_compat; assumption. }
  lra.
Qed.

Lemma imageDuration_nonneg (s : Session) :
  0 <= duration s -> 0 <= imageDuration s.
Proof.
  intros D. unfold imageDuration, JS.mul. apply number_nonneg. lra.
Qed.

Lemma imageDuration_pos_inv (s : Session) :
  0 < imageDuration s -> 0 < duration s.
Proof.
  intros D. destruct (Qlt_le_dec 0 (duration s)) as [P | N]; [exact P | ].
  exfalso. unfold imageDuration, JS.mul in D.
  assert (JS.number (duration s * 1000) <= 0) by (apply number_nonpos; lra).
  lra.
Qed.

(** A tick at a non-negative time that passes the guard belongs to a session
    whose per-image duration is not negative. *)
Lemma running_duration_nonneg (s : Session) (t : Q) :
  0 <= t -> t < totalDuration s -> 0 <= imageDuration s.
Proof.
  intros T G. apply imageDuration_nonneg.
  destruct (Qlt_le_dec 0 (duration s)) as [P | N]; [lra | ].
  pose proof (totalDuration_nonpos s N). lra.
Qed.

(** A session with a positive per-image duration has a total duration that
    is not negative. *)
Lemma totalDuration_of_pos (s : Session) :
  0 < imageDuration s -> 0 <= totalDuration s.
Proof.
  intros D. apply totalDuration_nonneg.
  pose proof (imageDuration_pos_inv s D). lra.
Qed.

(** ** The timeline: indices, time in image, progress *)


Lemma transitionProgress_spec (s : Session) (ti : Q) :
  transitionProgressAt s ti
  = Spec.progress (imageDuration s) transitionDuration ti.
Proof. reflexivity. Qed.


(** Reading a picture at an index within bounds. *)
Lemma element_in_bounds {A : Type} (arr : list A) (i : Z) :
  (0 <= i < Z.of_nat (List.length arr))%Z ->
  exists a, element arr i = Some a.
Proof.
  intros [L U]. unfold element.
  destruct (i <? 0)%Z eqn:E; [lia | ].
  destruct (nth_error arr (Z.to_nat i)) as [a | ] eqn:N.
  - exists a. reflexivity.
  - apply nth_error_None in N. lia.
Qed.

Lemma not_finished (s : Session) (t : Q) :
  t < totalDuration s -> JS.geb t (totalDuration s) = false.
Proof. intros H. apply geb_lt. exact H. Qed.


Section Timeline.

Variable s : Session.
Variable t : Q.
Hypothesis duration_pos : 0 < imageDuration s.
Hypothesis t_nonneg : 0 <= t.
Hypothesis t_in_slots : t < inject_Z (images_length s) * imageDuration s.

(** A time inside the slots belongs to a session with a picture. *)
Lemma running_has_images : (1 <= images_length s)%Z.
Proof using duration_pos t_nonneg t_in_slots.
  pose proof (images_length_nonneg s) as Hn.
  destruct (Z.eq_dec (images_length s) 0) as [E | E]; [ | lia].
  exfalso. rewrite E in t_in_slots.
  setoid_replace (inject_Z 0 * imageDuration s) with 0 in t_in_slots by ring.
  lra.
Qed.

Lemma quotient_nonneg : 0 <= t / imageDuration s.
Proof using duration_pos t_nonneg.
  apply quotient_of_nonneg; lra.
Qed.

Lemma quotient_below_length : t / imageDuration s < inject_Z (images_length s).
Proof using duration_pos t_in_slots.
  apply Qlt_shift_div_r; assumption.
Qed.

Lemma currentIndex_bounds :
  (0 <= currentIndexAt s t <= images_length s - 1)%Z.
Proof using duration_pos t_nonneg t_in_slots.
  unfold currentIndexAt, JS.floor. split.
  - rewrite <- (Qfloor_Z 0). apply Qfloor_resp_le. apply quotient_nonneg.
  - assert (Qfloor (t / imageDuration s) < images_length s)%Z; [ | lia].
    rewrite Zlt_Qlt.
    apply Qle_lt_trans with (t / imageDuration s);
      [apply Qfloor_le | apply quotient_below_length].
Qed.

Lemma nextIndex_spec :
  nextIndexAt s t = Spec.nextIndex (images_length s) (currentIndexAt s t).
Proof using duration_pos t_nonneg t_in_slots.
  pose proof currentIndex_bounds as B. pose proof running_has_images as N.
  unfold nextIndexAt, Spec.nextIndex, JS.remz.
  apply Z.rem_mod_nonneg; lia.
Qed.

Lemma nextIndex_bounds :
  (0 <= nextIndexAt s t <= images_length s - 1)%Z.
Proof using duration_pos t_nonneg t_in_slots.
  pose proof running_has_images as N.
  rewrite nextIndex_spec. unfold Spec.nextIndex.
  pose proof (Z.mod_pos_bound (currentIndexAt s t + 1) (images_length s)).
  lia.
Qed.

Lemma timeInCurrentImage_bounds :
  0 <= timeInCurrentImageAt s t /\ timeInCurrentImageAt s t < imageDuration s.
Proof using duration_pos t_nonneg.
  apply rem_bounds; assumption.
Qed.

Lemma currentImg_defined :
  exists img, element (loadedImages s) (currentIndexAt s t) = Some img.
Proof using duration_pos t_nonneg t_in_slots.
  apply element_in_bounds. pose proof currentIndex_bounds as B.
  unfold images_length in B. lia.
Qed.

Lemma nextImg_defined :
  exists img, element (loadedImages s) (nextIndexAt s t) = Some img.
Proof using duration_pos t_nonneg t_in_slots.
  apply element_in_bounds. pose proof nextIndex_bounds as B.
  unfold images_length in B. lia.
Qed.

End Timeline.



(** ** The session as a sequence of ticks *)

Lemma drawImageCover_defined (ctx : Context2D) (img : HTMLImageElement)
    (w h : Q) :
  exists ctx', drawImageCover ctx (Some img) w h = JS.Normal ctx'.
Proof. eexists. reflexivity. Qed.

(** With both pictures present the blend never throws, whatever the style. *)
Lemma compositeFrame_defined (style : string) (ctx : Context2D)
    (a b : HTMLImageElement) (p : Q) :
  exists ctx', compositeFrame style ctx (Some a) (Some b) p = JS.Normal ctx'.
Proof.
  unfold compositeFrame.
  destruct (String.eqb style "fade"); [eexists; reflexivity | ].
  destruct (String.eqb style "slide"); [eexists; reflexivity | ].
  destruct (String.eqb style "zoom"); eexists; reflexivity.
Qed.

(** A tick that passes the guard at a time inside the slots paints a frame
    and sets the timer. *)
Lemma renderFrame_running (s : Session) (ctx : Context2D) (t : Q) :
  0 < imageDuration s -> 0 <= t ->
  t < inject_Z (images_length s) * imageDuration s ->
  t < totalDuration s ->
  exists ctx', renderFrame s ctx t = Rescheduled ctx'.
Proof.
  intros D H0 H1 G.
  destruct (currentImg_defined s t D H0 H1) as [cur Hc].
  destruct (nextImg_defined s t D H0 H1) as [next Hn].
  unfold renderFrame. rewrite (not_finished s t G). cbv zeta.
  rewrite Hc, Hn.
  destruct (JS.ltb _ _).
  - destruct (drawImageCover_defined (clearFrame ctx) cur
                canvas_width canvas_height) as [c E].
    exists c. rewrite E. reflexivity.
  - destruct (compositeFrame_defined (transition s) (clearFrame ctx) cur next
                (transitionProgressAt s (timeInCurrentImageAt s t))) as [c E].
    exists c. rewrite E. reflexivity.
Qed.

(** At or past the end a tick only stops the recorder. *)
Lemma renderFrame_finished (s : Session) (ctx : Context2D) (t : Q) :
  totalDuration s <= t -> renderFrame s ctx t = Stopped.
Proof.
  intros H. unfold renderFrame. apply geb_ge in H. rewrite H. reflexivity.
Qed.

Lemma count_cons {A : Type} (f : A -> bool) (x : A) (l : list A) :
  count f (x :: l) = if f x then S (count f l) else count f l.
Proof. unfold count. cbn [filter]. destruct (f x); reflexivity. Qed.




(** ** The timeline on running ticks *)



(** With three pictures of 1.1 s the tick sampled at 3300 ms throws, whatever
    the style and the state of the canvas. *)
Lemma fractional_tick_throws (A B C : HTMLImageElement) (style : string)
    (ctx : Context2D) :
  renderFrame (fractionalProgram A B C style) ctx 3300 = Uncaught JS.TypeError.
Proof.
  unfold renderFrame.
  assert (JS.geb 3300 (totalDuration (fractionalProgram A B C style)) = false)
    as G by (vm_compute; reflexivity).
  rewrite G. cbv zeta.
  assert (element (loadedImages (fractionalProgram A B C style))
            (currentIndexAt (fractionalProgram A B C style) 3300) = None)
    as E by (vm_compute; reflexivity).
  rewrite E.
  assert (JS.ltb (timeInCurrentImageAt (fractionalProgram A B C style) 3300)
            (imageDuration (fractionalProgram A B C style)
             - transitionDuration) = true)
    as W by (vm_compute; reflexivity).
  rewrite W. reflexivity.
Qed.

(** C1 (defect). Three pictures, 1.1 s each: the sample [t = 3300] satisfies
    [0 <= t < totalDuration], because the source's total
    [3 * 1.1 * 1000] is 3300.0000000000005; the current index is
    [floor(3300 / 1100) = 3], one past the last picture; the time in image is
    0, before the transition window; the read of [loadedImages] gives
    [undefined] and the lone draw throws a [TypeError] instead of rendering
    a picture. *)
Theorem tick_beyond_last_slot (A B C : HTMLImageElement) (style : string)
    (ctx : Context2D) :
  let s := fractionalProgram A B C style in
  0 <= 3300 /\ 3300 < totalDuration s
  /\ currentIndexAt s 3300 = Spec.currentIndex (imageDuration s) 3300
  /\ currentIndexAt s 3300 = images_length s
  /\ timeInCurrentImageAt s 3300 == 0
  /\ timeInCurrentImageAt s 3300 < imageDuration s - transitionDuration
  /\ element (loadedImages s) (currentIndexAt s 3300) = None
  /\ renderFrame s ctx 3300 = Uncaught JS.TypeError.
Proof.
  intros s.
  split; [vm_compute; discriminate | ].
  split; [vm_compute; reflexivity | ].
  split; [reflexivity | ].
  split; [vm_compute; reflexivity | ].
  split; [vm_compute; reflexivity | ].
  split; [vm_compute; reflexivity | ].
  split; [vm_compute; reflexivity | ].
  apply fractional_tick_throws.
Qed.

(** C2 (defect). Three pictures, 1.1 s each: the per-image duration
    [1.1 * 1000] is 1100 but the total [3 * 1.1 * 1000] is
    3300.0000000000005, not 3 times 1100.  A session whose clock is sampled
    at 0 and then at 3300 paints one frame and then throws a [TypeError]: the
    recorder is never stopped, whatever the later samples. *)
Theorem total_duration_exceeds_slots (A B C : HTMLImageElement)
    (style : string) (ctx : Context2D) (later : list Q) :
  let s := fractionalProgram A B C style in
  imageDuration s == 1100
  /\ totalDuration s == 3300 + (1 # 2199023255552)
  /\ ~ totalDuration s == inject_Z (images_length s) * imageDuration s
  /\ count isFrame (run s ctx (0 :: 3300 :: later)) = 1%nat
  /\ In (Exception JS.TypeError) (run s ctx (0 :: 3300 :: later))
  /\ count isStop (run s ctx (0 :: 3300 :: later)) = 0%nat.
Proof.
  intros s.
  split; [vm_compute; reflexivity | ].
  split; [vm_compute; reflexivity | ].
  split; [vm_compute; discriminate | ].
  destruct (renderFrame_running s ctx 0) as [c0 E0].
  - vm_compute. reflexivity.
  - vm_compute. discriminate.
  - vm_compute. reflexivity.
  - vm_compute. reflexivity.
  - cbn [run]. rewrite E0.
    unfold s at 1 3 5. rewrite (fractional_tick_throws A B C style c0).
    rewrite !count_cons. cbn [isFrame isStop].
    split; [reflexivity | ]. split; [ | reflexivity].
    right. right. left. reflexivity.
Qed.



(** ** The range of the progress *)



(** The remainder by a negative number stays above it. *)
Lemma rem_above_negative (t d : Q) : d < 0 -> d < JS.rem t d.
Proof.
  intros D. unfold JS.rem.
  assert (t == d * (t / d)) as E by (field; lra).
  destruct (Qlt_le_dec t 0) as [N | P].
  - assert (0 <= t / d) as X.
    { setoid_replace (t / d) with ((- t) / (- d)) by (field; lra).
      apply quotient_of_nonneg; lra. }
    rewrite (trunc_is_floor _ X).
    pose proof (Qlt_floor (t / d)) as U. rewrite inject_Z_plus in U.
    change (inject_Z 1) with 1 in U.
    set (f := inject_Z (Qfloor (t / d))) in *. clearbody f.
    set (x := t / d) in *. clearbody x. nra.
  - assert (t / d <= 0) as X.
    { setoid_replace (t / d) with (- (t / (- d))) by (field; lra).
      pose proof (quotient_of_nonneg t (- d)) as Q0.
      assert (0 <= t / - d) by (apply Q0; lra). lra. }
    pose proof (trunc_of_nonpos _ X) as U.
    set (z := inject_Z (JS.trunc (t / d))) in *. clearbody z.
    set (x := t / d) in *. clearbody x. nra.
Qed.

(** The restriction to positive durations is needed: with a negative
    per-image duration every tick takes the blend branch, with a progress
    above 1. *)
Lemma negative_duration_overshoots (s : Session) (t : Q) :
  imageDuration s < 0 ->
  ~ timeInCurrentImageAt s t < imageDuration s - transitionDuration
  /\ 1 < transitionProgressAt s (timeInCurrentImageAt s t).
Proof.
  intros D.
  pose proof (rem_above_negative t (imageDuration s) D) as A.
  fold (timeInCurrentImageAt s t) in A.
  unfold transitionProgressAt, transitionDuration.
  set (ti := timeInCurrentImageAt s t) in *. clearbody ti.
  set (d := imageDuration s) in *. clearbody d.
  split.
  - apply Qle_not_lt. lra.
  - apply Qlt_shift_div_l; lra.
Qed.

(** With the duration field at -1 and two pictures, the tick sampled at
    -2500 ms passes the guard ([-2500 < -2000]) and reaches the blend with a
    progress of 2. *)
Lemma unclamped_progress_reaches_blend (ctx : Context2D) :
  renderFrame negativeProgram ctx (-2500)
  = thenSetTimeout
      (compositeFrame "fade" (clearFrame ctx) None (Some panorama)
         (transitionProgressAt negativeProgram
            (timeInCurrentImageAt negativeProgram (-2500))))
  /\ transitionProgressAt negativeProgram
       (timeInCurrentImageAt negativeProgram (-2500)) == 2.
Proof.
  split; [ | vm_compute; reflexivity].
  unfold renderFrame.
  assert (JS.geb (-2500) (totalDuration negativeProgram) = false) as G
    by (vm_compute; reflexivity).
  rewrite G. cbv zeta.
  assert (JS.ltb (timeInCurrentImageAt negativeProgram (-2500))
            (imageDuration negativeProgram - transitionDuration) = false) as W
    by (vm_compute; reflexivity).
  rewrite W. reflexivity.
Qed.


(** C7. Program [[A, B, C]], 3000 ms per picture, style fade, 500 ms
    transition.  At [t = 2800]: current index 0, next index 1, progress 0.6,
    and the frame is the fade of A into B at that progress.  At [t = 3100]:
    current index 1, time in image 100, below 2500, and the frame is B drawn
    alone. *)
Theorem scenario_three_pictures (A B C : HTMLImageElement) (ctx : Context2D) :
  let s := threePictures A B C "fade" in
  imageDuration s == 3000
  /\ transitionDuration == 500
  /\ currentIndexAt s 2800 = 0%Z
  /\ nextIndexAt s 2800 = 1%Z
  /\ transitionProgressAt s (timeInCurrentImageAt s 2800) == 6 # 10
  /\ renderFrame s ctx 2800
     = thenSetTimeout
         (compositeFrame "fade" (clearFrame ctx) (Some A) (Some B)
            (transitionProgressAt s (timeInCurrentImageAt s 2800)))
  /\ currentIndexAt s 3100 = 1%Z
  /\ timeInCurrentImageAt s 3100 == 100
  /\ timeInCurrentImageAt s 3100 < imageDuration s - transitionDuration
  /\ imageDuration s - transitionDuration == 2500
  /\ renderFrame s ctx 3100
     = thenSetTimeout
         (drawImageCover (clearFrame ctx) (Some B) canvas_width canvas_height).
Proof.
  intros s.
  assert (JS.geb 2800 (totalDuration s) = false) as G1
    by (vm_compute; reflexivity).
  assert (JS.geb 3100 (totalDuration s) = false) as G2
    by (vm_compute; reflexivity).
  assert (JS.ltb (timeInCurrentImageAt s 2800)
            (imageDuration s - transitionDuration) = false) as W1
    by (vm_compute; reflexivity).
  assert (JS.ltb (timeInCurrentImageAt s 3100)
            (imageDuration s - transitionDuration) = true) as W2
    by (vm_compute; reflexivity).
  assert (currentIndexAt s 2800 = 0%Z) as C1 by (vm_compute; reflexivity).
  assert (nextIndexAt s 2800 = 1%Z) as N1 by (vm_compute; reflexivity).
  assert (currentIndexAt s 3100 = 1%Z) as C2 by (vm_compute; reflexivity).
  split; [vm_compute; reflexivity | ].
  split; [reflexivity | ].
  split; [exact C1 | ].
  split; [exact N1 | ].
  split; [vm_compute; reflexivity | ].
  split.
  { unfold renderFrame. rewrite G1. cbv zeta. rewrite W1, C1, N1.
    reflexivity. }
  split; [exact C2 | ].
  split; [vm_compute; reflexivity | ].
  split; [vm_compute; reflexivity | ].
  split; [vm_compute; reflexivity | ].
  unfold renderFrame. rewrite G2. cbv zeta. rewrite W2, C2. reflexivity.
Qed.

(** ** Pixels *)

Lemma rgba_eq_refl (p : RGBA) : rgba_eq p p.
Proof. unfold rgba_eq. repeat split; reflexivity. Qed.

Lemma rgba_eq_sym (p q : RGBA) : rgba_eq p q -> rgba_eq q p.
Proof. unfold rgba_eq. intros (A & B & C & D). repeat split; symmetry; assumption. Qed.

Lemma rgba_eq_trans (p q r : RGBA) : rgba_eq p q -> rgba_eq q r -> rgba_eq p r.
Proof.
  unfold rgba_eq. intros (A & B & C & D) (A' & B' & C' & D').
  repeat split; etransitivity; eassumption.
Qed.

(** Painting with no opacity leaves the pixel as it was. *)
Lemma sourceOver_invisible (src dst : RGBA) (ga : Q) :
  ga == 0 -> rgba_eq (sourceOver src ga dst) dst.
Proof.
  intros H. unfold rgba_eq, sourceOver. cbn [red green blue alpha].
  repeat split; rewrite H; ring.
Qed.

(** Painting an opaque texel at full opacity hides what was below. *)
Lemma sourceOver_opaque (src dst dst' : RGBA) (ga ga' : Q) :
  ga == 1 -> ga' == 1 -> alpha src == 1 ->
  rgba_eq (sourceOver src ga dst) (sourceOver src ga' dst').
Proof.
  intros H H' A. unfold rgba_eq, sourceOver. cbn [red green blue alpha].
  repeat split; rewrite H, H', A; ring.
Qed.

Lemma sourceOver_compat (src dst dst' : RGBA) (ga ga' : Q) :
  ga == ga' -> rgba_eq dst dst' ->
  rgba_eq (sourceOver src ga dst) (sourceOver src ga' dst').
Proof.
  intros H (A & B & C & D). unfold rgba_eq, sourceOver.
  cbn [red green blue alpha].
  repeat split; rewrite H; [rewrite A | rewrite B | rewrite C | rewrite D];
    reflexivity.
Qed.

Lemma black_over_anything (dst : RGBA) : rgba_eq (sourceOver black 1 dst) black.
Proof.
  unfold rgba_eq, sourceOver, black. cbn [red green blue alpha].
  repeat split; ring.
Qed.

Lemma matrix_eq_refl (m : Matrix) : matrix_eq m m.
Proof. unfold matrix_eq. repeat split; reflexivity. Qed.

Lemma userX_compat (m n : Matrix) (i : Z) :
  matrix_eq m n -> userX m i == userX n i.
Proof.
  intros (A & _ & C & _). unfold userX. rewrite A, C. reflexivity.
Qed.

Lemma userY_compat (m n : Matrix) (j : Z) :
  matrix_eq m n -> userY m j == userY n j.
Proof.
  intros (_ & B & _ & D). unfold userY. rewrite B, D. reflexivity.
Qed.

Lemma userX_identity (i : Z) : userX identity i == inject_Z i + (1 # 2).
Proof. unfold userX, identity. cbn [sx tx]. field. Qed.

Lemma userY_identity (j : Z) : userY identity j == inject_Z j + (1 # 2).
Proof. unfold userY, identity. cbn [sy ty]. field. Qed.

Lemma within_compat (lo len u u' : Q) :
  u == u' -> within lo len u = within lo len u'.
Proof. intros H. unfold within, JS.ltb. rewrite H. reflexivity. Qed.

Lemma inRect_compat (x y w h u u' v v' : Q) :
  u == u' -> v == v' -> inRect x y w h u v = inRect x y w h u' v'.
Proof.
  intros Hu Hv. unfold inRect.
  rewrite (within_compat x w u u' Hu), (within_compat y h v v' Hv).
  reflexivity.
Qed.

Lemma sample_compat (img : HTMLImageElement) (dx dy dw dh u u' v v' : Q) :
  u == u' -> v == v' ->
  sample img dx dy dw dh u v = sample img dx dy dw dh u' v'.
Proof.
  intros Hu Hv. unfold sample, JS.floor.
  rewrite Hu, Hv. reflexivity.
Qed.

Lemma within_true (lo len u : Q) :
  within lo len u = true <-> lo <= u /\ u < lo + len.
Proof.
  unfold within. rewrite andb_true_iff, Qle_bool_iff, ltb_lt. reflexivity.
Qed.

(** The centre of a pixel of the frame, in numbers. *)
Lemma pixel_centre (i j : Z) :
  inFrame i j ->
  0 < inject_Z i + (1 # 2) /\ inject_Z i + (1 # 2) < canvas_width
  /\ 0 < inject_Z j + (1 # 2) /\ inject_Z j + (1 # 2) < canvas_height.
Proof.
  intros [[I0 I1] [J0 J1]].
  assert (inject_Z 0 <= inject_Z i) as A by (rewrite <- Zle_Qle; exact I0).
  assert (inject_Z i <= inject_Z 1919) as B by (rewrite <- Zle_Qle; lia).
  assert (inject_Z 0 <= inject_Z j) as C by (rewrite <- Zle_Qle; exact J0).
  assert (inject_Z j <= inject_Z 1079) as D by (rewrite <- Zle_Qle; lia).
  change (inject_Z 0) with 0 in A, C.
  change (inject_Z 1919) with 1919 in B.
  change (inject_Z 1079) with 1079 in D.
  unfold canvas_width, canvas_height.
  repeat split; lra.
Qed.

(** The pixel written by [drawImage]. *)
Lemma bitmap_drawImage (ctx : Context2D) (img : HTMLImageElement)
    (dx dy dw dh : Q) (i j : Z) :
  bitmap (drawImage ctx img dx dy dw dh) i j
  = if inRect dx dy dw dh (userX (ctm ctx) i) (userY (ctm ctx) j)
    then sourceOver
           (sample img dx dy dw dh (userX (ctm ctx) i) (userY (ctm ctx) j))
           (globalAlpha ctx) (bitmap ctx i j)
    else bitmap ctx i j.
Proof. reflexivity. Qed.

Section OnePicture.

Variable img : HTMLImageElement.
Variables dx dy dw dh : Q.
Variables i j : Z.

(** Drawn with no opacity, a picture changes nothing. *)
Lemma drawImage_invisible (ctx : Context2D) :
  globalAlpha ctx == 0 ->
  rgba_eq (bitmap (drawImage ctx img dx dy dw dh) i j) (bitmap ctx i j).
Proof.
  intros H. rewrite bitmap_drawImage.
  destruct (inRect _ _ _ _ _ _).
  - apply sourceOver_invisible. exact H.
  - apply rgba_eq_refl.
Qed.

(** A pixel outside the destination rectangle is not touched. *)
Lemma drawImage_outside (ctx : Context2D) :
  inRect dx dy dw dh (userX (ctm ctx) i) (userY (ctm ctx) j) = false ->
  bitmap (drawImage ctx img dx dy dw dh) i j = bitmap ctx i j.
Proof. intros H. rewrite bitmap_drawImage, H. reflexivity. Qed.

(** The same draw on two contexts that agree on the transformation, on the
    opacity and on the pixel gives the same pixel. *)
Lemma drawImage_compat (c1 c2 : Context2D) :
  matrix_eq (ctm c1) (ctm c2) ->
  globalAlpha c1 == globalAlpha c2 ->
  rgba_eq (bitmap c1 i j) (bitmap c2 i j) ->
  rgba_eq (bitmap (drawImage c1 img dx dy dw dh) i j)
          (bitmap (drawImage c2 img dx dy dw dh) i j).
Proof.
  intros M A P. rewrite !bitmap_drawImage.
  rewrite (inRect_compat dx dy dw dh _ _ _ _
             (userX_compat _ _ i M) (userY_compat _ _ j M)).
  rewrite (sample_compat img dx dy dw dh _ _ _ _
             (userX_compat _ _ i M) (userY_compat _ _ j M)).
  destruct (inRect _ _ _ _ _ _).
  - apply sourceOver_compat; assumption.
  - exact P.
Qed.

(** An opaque picture drawn at full opacity over a pixel it covers decides
    that pixel alone. *)
Lemma drawImage_covering (c1 c2 : Context2D) :
  opaque img ->
  matrix_eq (ctm c1) (ctm c2) ->
  globalAlpha c1 == 1 -> globalAlpha c2 == 1 ->
  inRect dx dy dw dh (userX (ctm c2) i) (userY (ctm c2) j) = true ->
  rgba_eq (bitmap (drawImage c1 img dx dy dw dh) i j)
          (bitmap (drawImage c2 img dx dy dw dh) i j).
Proof.
  intros O M A1 A2 R. rewrite !bitmap_drawImage.
  rewrite (inRect_compat dx dy dw dh _ _ _ _
             (userX_compat _ _ i M) (userY_compat _ _ j M)).
  rewrite (sample_compat img dx dy dw dh _ _ _ _
             (userX_compat _ _ i M) (userY_compat _ _ j M)).
  rewrite R. apply sourceOver_opaque; try assumption. apply O.
Qed.

End OnePicture.

(** The cover rectangle of a picture with positive size contains the centre
    of every pixel of the frame. *)
Lemma cover_contains_frame (img : HTMLImageElement) (m : Matrix) (i j : Z) :
  wellSized img -> matrix_eq m identity -> inFrame i j ->
  let r := coverRect (inject_Z (width img)) (inject_Z (height img))
                     canvas_width canvas_height in
  inRect (offsetX r) (offsetY r) (drawWidth r) (drawHeight r)
         (userX m i) (userY m j) = true.
Proof.
  intros [W H] M F r.
  rewrite (inRect_compat _ _ _ _ _ _ _ _
             (userX_compat _ _ i M) (userY_compat _ _ j M)).
  rewrite (inRect_compat _ _ _ _ _ _ _ _
             (userX_identity i) (userY_identity j)).
  destruct (pixel_centre i j F) as (X0 & X1 & Y0 & Y1).
  assert (0 < inject_Z (width img)) as Wq
    by (change 0 with (inject_Z 0); rewrite <- Zlt_Qlt; exact W).
  assert (0 < inject_Z (height img)) as Hq
    by (change 0 with (inject_Z 0); rewrite <- Zlt_Qlt; exact H).
  assert (0 < canvas_width) as Cw by reflexivity.
  assert (0 < canvas_height) as Ch by reflexivity.
  pose proof (coverRect_bounds _ _ _ _ Wq Hq Cw Ch) as B. cbv zeta in B.
  fold r in B. destruct B as (_ & _ & B3 & B4 & B5 & B6).
  unfold inRect. apply andb_true_iff. split; apply within_true; split; lra.
Qed.

(** The clear to black. *)
Lemma clearFrame_black (ctx : Context2D) (i j : Z) :
  ready ctx -> inFrame i j -> rgba_eq (bitmap (clearFrame ctx) i j) black.
Proof.
  intros [M A] F. unfold clearFrame, fillRect, set_fillStyle.
  cbn [bitmap ctm globalAlpha fillStyle]. rewrite M, A.
  rewrite (inRect_compat _ _ _ _ _ _ _ _
             (userX_identity i) (userY_identity j)).
  destruct (pixel_centre i j F) as (X0 & X1 & Y0 & Y1).
  assert (inRect 0 0 canvas_width canvas_height
            (inject_Z i + (1 # 2)) (inject_Z j + (1 # 2)) = true) as R.
  { unfold inRect. apply andb_true_iff.
    split; apply within_true; split; lra. }
  rewrite R. apply black_over_anything.
Qed.

Lemma clearFrame_ready (ctx : Context2D) : ready ctx -> ready (clearFrame ctx).
Proof. intros H. exact H. Qed.

(** ** Unknown transition styles *)

(** A style that is none of the three names falls through every branch. *)
Lemma compositeFrame_unknown (style : string) (ctx : Context2D)
    (a b : option HTMLImageElement) (p : Q) :
  style <> "fade"%string -> style <> "slide"%string -> style <> "zoom"%string ->
  compositeFrame style ctx a b p = JS.Normal ctx.
Proof.
  intros F S Z. unfold compositeFrame.
  apply String.eqb_neq in F, S, Z. rewrite F, S, Z. reflexivity.
Qed.

(** C9. With a transition style outside fade, slide and zoom, a tick inside
    the transition window clears the frame to black, draws no picture, throws
    nothing and sets the next timer: every pixel of the frame it leaves is
    black. *)
Theorem unknown_style_leaves_black (s : Session) (ctx : Context2D) (t : Q) :
  ready ctx ->
  transition s <> "fade"%string ->
  transition s <> "slide"%string ->
  transition s <> "zoom"%string ->
  t < totalDuration s ->
  ~ timeInCurrentImageAt s t < imageDuration s - transitionDuration ->
  renderFrame s ctx t = Rescheduled (clearFrame ctx)
  /\ forall i j, inFrame i j -> rgba_eq (bitmap (clearFrame ctx) i j) black.
Proof.
  intros R F S Z H1 W. split.
  - unfold renderFrame. rewrite (not_finished s t H1). cbv zeta.
    apply Qnot_lt_le, ltb_ge in W. rewrite W.
    rewrite (compositeFrame_unknown _ _ _ _ _ F S Z). reflexivity.
  - intros i j Fr. apply clearFrame_black; assumption.
Qed.

Lemma unknown_style_leaves_black_witness :
  let s := threePictures landscape panorama portrait "wipe" in
  renderFrame s getContext 2800 = Rescheduled (clearFrame getContext)
  /\ forall i j, inFrame i j -> rgba_eq (bitmap (clearFrame getContext) i j) black.
Proof.
  apply (unknown_style_leaves_black
           (threePictures landscape panorama portrait "wipe") getContext 2800).
  - split; reflexivity.
  - discriminate.
  - discriminate.
  - discriminate.
  - reflexivity.
  - apply Qle_not_lt. vm_compute. discriminate.
Defined.

(** ** Transitions at their two ends *)

Lemma set_globalAlpha_valid (ctx : Context2D) (a : Q) :
  0 <= a -> a <= 1 ->
  set_globalAlpha ctx a
  = mkContext (fillStyle ctx) a (ctm ctx) (stack ctx) (bitmap ctx).
Proof.
  intros L U. unfold set_globalAlpha.
  apply Qle_bool_iff in L, U. rewrite L, U. reflexivity.
Qed.

Lemma ctm_drawImage (ctx : Context2D) (img : HTMLImageElement)
    (dx dy dw dh : Q) :
  ctm (drawImage ctx img dx dy dw dh) = ctm ctx.
Proof. reflexivity. Qed.

Lemma globalAlpha_drawImage (ctx : Context2D) (img : HTMLImageElement)
    (dx dy dw dh : Q) :
  globalAlpha (drawImage ctx img dx dy dw dh) = globalAlpha ctx.
Proof. reflexivity. Qed.

Lemma stack_drawImage (ctx : Context2D) (img : HTMLImageElement)
    (dx dy dw dh : Q) :
  stack (drawImage ctx img dx dy dw dh) = stack ctx.
Proof. reflexivity. Qed.

Lemma restore_drawImage (ctx : Context2D) (img : HTMLImageElement)
    (dx dy dw dh : Q) :
  restore (drawImage ctx img dx dy dw dh)
  = match stack ctx with
    | [] => drawImage ctx img dx dy dw dh
    | d :: rest =>
        mkContext (saved_fill d) (saved_alpha d) (saved_ctm d) rest
                  (bitmap (drawImage ctx img dx dy dw dh))
    end.
Proof. reflexivity. Qed.

Lemma ctm_set_globalAlpha (ctx : Context2D) (a : Q) :
  ctm (set_globalAlpha ctx a) = ctm ctx.
Proof. unfold set_globalAlpha. destruct (_ && _); reflexivity. Qed.

Lemma stack_set_globalAlpha (ctx : Context2D) (a : Q) :
  stack (set_globalAlpha ctx a) = stack ctx.
Proof. unfold set_globalAlpha. destruct (_ && _); reflexivity. Qed.

Lemma bitmap_set_globalAlpha (ctx : Context2D) (a : Q) :
  bitmap (set_globalAlpha ctx a) = bitmap ctx.
Proof. unfold set_globalAlpha. destruct (_ && _); reflexivity. Qed.

(** Evaluation of the canvas calls, leaving the arithmetic alone. *)
Ltac canvas_step :=
  rewrite ?set_globalAlpha_valid by (vm_compute; discriminate);
  rewrite ?restore_drawImage;
  rewrite ?ctm_drawImage, ?globalAlpha_drawImage, ?stack_drawImage;
  rewrite ?ctm_set_globalAlpha, ?stack_set_globalAlpha, ?bitmap_set_globalAlpha;
  cbn [bitmap ctm globalAlpha stack fillStyle save translate scale
       saved_ctm saved_alpha saved_fill sx sy tx ty identity].

Ltac canvas_eval := repeat (progress canvas_step).

Ltac closed_matrix_eq :=
  unfold matrix_eq; cbn [sx sy tx ty]; repeat split; vm_compute; reflexivity.

Section Boundaries.

Variable ctx : Context2D.
Variables currentImg nextImg : HTMLImageElement.
Hypothesis ctx_ready : ready ctx.

Let base : Context2D := clearFrame ctx.

Lemma base_ctm : ctm base = identity.
Proof using ctx_ready. exact (proj1 ctx_ready). Qed.

Lemma base_alpha : globalAlpha base = 1.
Proof using ctx_ready. exact (proj2 ctx_ready). Qed.

Lemma fade_start : continuousAtStart "fade" ctx currentImg nextImg.
Proof.
  unfold continuousAtStart, transitionFrame, pictureAlone, compositeFrame,
    drawImageCover, sameResult.
  cbn [String.eqb Ascii.eqb Bool.eqb andb JS.bind]. fold base.
  intros i j _. canvas_eval.
  eapply rgba_eq_trans; [apply drawImage_invisible | apply rgba_eq_refl].
  reflexivity.
Qed.

Lemma fade_end :
  wellSized nextImg -> opaque nextImg ->
  continuousAtEnd "fade" ctx currentImg nextImg.
Proof using ctx_ready.
  intros W O.
  unfold continuousAtEnd, transitionFrame, pictureAlone, compositeFrame,
    drawImageCover, sameResult.
  cbn [String.eqb Ascii.eqb Bool.eqb andb JS.bind]. fold base.
  intros i j F. canvas_eval.
  apply drawImage_covering; canvas_eval; try assumption.
  - rewrite base_ctm. apply matrix_eq_refl.
  - reflexivity.
  - rewrite base_alpha. reflexivity.
  - apply cover_contains_frame; try assumption.
    rewrite base_ctm. apply matrix_eq_refl.
Qed.

Lemma slide_start :
  notWider nextImg -> continuousAtStart "slide" ctx currentImg nextImg.
Proof using ctx_ready.
  intros N.
  unfold continuousAtStart, transitionFrame, pictureAlone, compositeFrame,
    drawImageCover, sameResult.
  cbn [String.eqb Ascii.eqb Bool.eqb andb JS.bind]. fold base.
  intros i j F. canvas_eval.
  rewrite (coverRect_tall _ _ _ _ N). cbn [offsetX offsetY drawWidth drawHeight].
  rewrite drawImage_outside.
  - canvas_eval. apply drawImage_compat; canvas_eval.
    + rewrite base_ctm. closed_matrix_eq.
    + reflexivity.
    + apply rgba_eq_refl.
  - canvas_eval. rewrite base_ctm. cbn [sx sy tx ty identity].
    unfold inRect.
    assert (within 0 canvas_width
              (userX (mkMatrix 1 1 (0 + 1 * (canvas_width - canvas_width * 0))
                               (0 + 1 * 0)) i) = false) as E.
    { destruct (within _ _ _) eqn:E; [ | reflexivity].
      apply within_true in E. destruct E as [E _].
      destruct (pixel_centre i j F) as (_ & X1 & _).
      assert (userX (mkMatrix 1 1 (0 + 1 * (canvas_width - canvas_width * 0))
                              (0 + 1 * 0)) i
              == inject_Z i + (1 # 2) - canvas_width) as U
        by (unfold userX; cbn [sx tx]; field).
      rewrite U in E. lra. }
    rewrite E. reflexivity.
Qed.

Lemma slide_end :
  wellSized nextImg -> opaque nextImg ->
  continuousAtEnd "slide" ctx currentImg nextImg.
Proof using ctx_ready.
  intros W O.
  unfold continuousAtEnd, transitionFrame, pictureAlone, compositeFrame,
    drawImageCover, sameResult.
  cbn [String.eqb Ascii.eqb Bool.eqb andb JS.bind]. fold base.
  intros i j F. canvas_eval.
  apply drawImage_covering; canvas_eval; try assumption.
  - rewrite base_ctm. closed_matrix_eq.
  - rewrite base_alpha. reflexivity.
  - rewrite base_alpha. reflexivity.
  - apply cover_contains_frame; try assumption.
    rewrite base_ctm. apply matrix_eq_refl.
Qed.

(** A current picture that is not wider than the frame has left the frame
    entirely at progress 1, so the next picture is all that shows. *)
Lemma slide_end_narrow :
  notWider currentImg -> continuousAtEnd "slide" ctx currentImg nextImg.
Proof using ctx_ready.
  intros N.
  unfold continuousAtEnd, transitionFrame, pictureAlone, compositeFrame,
    drawImageCover, sameResult.
  cbn [String.eqb Ascii.eqb Bool.eqb andb JS.bind]. fold base.
  intros i j F. canvas_eval.
  rewrite (coverRect_tall _ _ _ _ N). cbn [offsetX offsetY drawWidth drawHeight].
  apply drawImage_compat; canvas_eval.
  - rewrite base_ctm. closed_matrix_eq.
  - rewrite base_alpha. reflexivity.
  - rewrite drawImage_outside; [canvas_eval; apply rgba_eq_refl | ].
    canvas_eval. rewrite base_ctm. cbn [sx sy tx ty identity].
    unfold inRect.
    assert (within 0 canvas_width
              (userX (mkMatrix 1 1 (0 + 1 * - (canvas_width * 1)) (0 + 1 * 0)) i)
            = false) as E.
    { destruct (within _ _ _) eqn:E; [ | reflexivity].
      apply within_true in E. destruct E as [_ E].
      destruct (pixel_centre i j F) as (X0 & _).
      assert (userX (mkMatrix 1 1 (0 + 1 * - (canvas_width * 1)) (0 + 1 * 0)) i
              == inject_Z i + (1 # 2) + canvas_width) as U
        by (unfold userX; cbn [sx tx]; field).
      rewrite U in E. lra. }
    rewrite E. reflexivity.
Qed.

Lemma zoom_start : continuousAtStart "zoom" ctx currentImg nextImg.
Proof using ctx_ready.
  unfold continuousAtStart, transitionFrame, pictureAlone, compositeFrame,
    drawImageCover, sameResult.
  cbn [String.eqb Ascii.eqb Bool.eqb andb JS.bind]. fold base.
  intros i j F. canvas_eval.
  eapply rgba_eq_trans; [apply drawImage_invisible; reflexivity | ].
  canvas_eval. apply drawImage_compat; canvas_eval.
  - rewrite base_ctm. closed_matrix_eq.
  - rewrite base_alpha. reflexivity.
  - apply rgba_eq_refl.
Qed.

Lemma zoom_end : continuousAtEnd "zoom" ctx currentImg nextImg.
Proof using ctx_ready.
  unfold continuousAtEnd, transitionFrame, pictureAlone, compositeFrame,
    drawImageCover, sameResult.
  cbn [String.eqb Ascii.eqb Bool.eqb andb JS.bind]. fold base.
  intros i j F. canvas_eval.
  apply drawImage_compat; canvas_eval.
  - apply matrix_eq_refl.
  - rewrite base_alpha. reflexivity.
  - eapply rgba_eq_trans;
      [apply drawImage_invisible; canvas_eval; reflexivity | ].
    canvas_eval. apply rgba_eq_refl.
Qed.

End Boundaries.

(** Every tick hands the context back as it found it: no transformation,
    full opacity. *)
Lemma renderFrame_keeps_ready (s : Session) (ctx ctx' : Context2D) (t : Q) :
  ready ctx -> renderFrame s ctx t = Rescheduled ctx' -> ready ctx'.
Proof.
  intros R. pose proof (clearFrame_ready ctx R) as [M A].
  unfold renderFrame. destruct (JS.geb _ _); [discriminate | ]. cbv zeta.
  generalize (transitionProgressAt s (timeInCurrentImageAt s t)). intros p.
  set (base := clearFrame ctx) in *. clearbody base.
  destruct (element _ (currentIndexAt s t)) as [cur | ];
    destruct (element _ (nextIndexAt s t)) as [next | ];
    destruct (JS.ltb _ _);
    unfold compositeFrame, drawImageCover;
    try destruct (String.eqb (transition s) "fade");
    try destruct (String.eqb (transition s) "slide");
    try destruct (String.eqb (transition s) "zoom");
    cbn [JS.bind thenSetTimeout]; intros E; try discriminate E;
    injection E as <-; unfold ready; canvas_eval; split;
    assumption || reflexivity.
Qed.

Lemma getContext_ready : ready getContext.
Proof. split; reflexivity. Qed.

(** C4 (amended). For every pair of pictures: with fade and with zoom the
    blend at progress 0 is pixel-identical to the current picture drawn alone,
    and with zoom the blend at progress 1 is pixel-identical to the next
    picture drawn alone.  With slide the blend at progress 0 is
    pixel-identical to the current picture alone when the next picture is not
    relatively wider than the frame.  With fade and with slide the blend at
    progress 1 is pixel-identical to the next picture alone when the next
    picture has positive size and no transparency; with slide also, for any
    next picture, when the current picture is not relatively wider than the
    frame. *)
Theorem boundary_policy_amended (ctx : Context2D)
    (currentImg nextImg : HTMLImageElement) :
  ready ctx ->
  continuousAtStart "fade" ctx currentImg nextImg
  /\ continuousAtStart "zoom" ctx currentImg nextImg
  /\ continuousAtEnd "zoom" ctx currentImg nextImg
  /\ (notWider nextImg -> continuousAtStart "slide" ctx currentImg nextImg)
  /\ (wellSized nextImg -> opaque nextImg ->
      continuousAtEnd "fade" ctx currentImg nextImg
      /\ continuousAtEnd "slide" ctx currentImg nextImg)
  /\ (notWider currentImg -> continuousAtEnd "slide" ctx currentImg nextImg).
Proof.
  intros R.
  split; [apply fade_start | ].
  split; [apply zoom_start; exact R | ].
  split; [apply zoom_end; exact R | ].
  split; [intros N; apply slide_start; assumption | ].
  split.
  - intros W O. split; [apply fade_end | apply slide_end]; assumption.
  - intros N. apply slide_end_narrow; assumption.
Qed.

Lemma boundary_policy_amended_witness :
  ready getContext
  /\ notWider portrait /\ wellSized portrait /\ opaque portrait
  /\ notWider landscape
  /\ continuousAtStart "fade" getContext landscape portrait
  /\ continuousAtStart "zoom" getContext landscape portrait
  /\ continuousAtEnd "zoom" getContext landscape portrait
  /\ continuousAtStart "slide" getContext landscape portrait
  /\ continuousAtEnd "fade" getContext landscape portrait
  /\ continuousAtEnd "slide" getContext landscape portrait.
Proof.
  assert (ready getContext) as R by (split; reflexivity).
  assert (notWider portrait) as N by (vm_compute; discriminate).
  assert (wellSized portrait) as W by (split; reflexivity).
  assert (opaque portrait) as O by (intros x y; reflexivity).
  assert (notWider landscape) as N' by (vm_compute; discriminate).
  destruct (boundary_policy_amended getContext landscape portrait R)
    as (A & B & C & D & E & G).
  destruct (E W O) as [E1 _].
  exact (conj R (conj N (conj W (conj O (conj N' (conj A (conj B (conj C
           (conj (D N) (conj E1 (G N'))))))))))).
Defined.

(** C4 as stated fails: sliding from a 1920x1080 red picture to a 3840x1080
    blue one, the blend at progress 0 already shows blue at pixel (1000, 0),
    where the current picture drawn alone is red. *)
Lemma boundary_policy_fails : ~ boundaryPolicy.
Proof.
  intros H.
  destruct (H "slide"%string getContext landscape panorama) as [S _].
  - right. left. reflexivity.
  - split; reflexivity.
  - split; reflexivity.
  - split; reflexivity.
  - unfold continuousAtStart, sameResult in S.
    assert (inFrame 1000 0) as F by (unfold inFrame; lia).
    pose proof (S 1000%Z 0%Z F) as [Hred _].
    vm_compute in Hred. discriminate Hred.
Qed.

(** The restriction to opaque pictures at progress 1 is needed: a
    half-transparent next picture lets the current one show through, under
    fade everywhere and under slide where a wide current picture still
    overhangs the frame. *)
Lemma fade_end_shows_through : ~ continuousAtEnd "fade" getContext landscape glass.
Proof.
  unfold continuousAtEnd, sameResult. intros S.
  assert (inFrame 1000 0) as F by (unfold inFrame; lia).
  pose proof (S 1000%Z 0%Z F) as [Hred _].
  vm_compute in Hred. discriminate Hred.
Qed.

Lemma slide_end_shows_through : ~ continuousAtEnd "slide" getContext panorama glass.
Proof.
  unfold continuousAtEnd, sameResult. intros S.
  assert (inFrame 100 0) as F by (unfold inFrame; lia).
  pose proof (S 100%Z 0%Z F) as (_ & _ & Hblue & _).
  vm_compute in Hblue. discriminate Hblue.
Qed.

(** ** Sink failures *)

(** Blobs without data are never kept as chunks. *)
Lemma no_data_no_chunks (recorded : list Blob) :
  forallb (fun b => (size b =? 0)%nat) recorded = true ->
  forall chunks, fold_left ondataavailable recorded chunks = chunks.
Proof.
  induction recorded as [ | b recorded IH]; intros H chunks.
  - reflexivity.
  - cbn [forallb] in H. apply andb_true_iff in H. destruct H as [Hb Hr].
    cbn [fold_left]. unfold ondataavailable at 2.
    apply Nat.eqb_eq in Hb. rewrite Hb. cbn [Nat.ltb Nat.leb].
    apply IH. exact Hr.
Qed.

(** C8 (amended). Once a session is under way: if the recorder cannot be
    constructed or started, nothing is ever published and the page stays in
    its creating state (there is no failed state to go to); if the recorder
    starts and the timeline runs to its end, the stop handler publishes a URL
    and leaves the creating state even when the recorder delivered no data,
    the blob behind the URL being empty. *)
Theorem sink_failure_outcomes (createObjectURL : Blob -> string)
    (p : Platform) (s : Session) (st : HomeState) :
  images_length s <> 0%Z ->
  canvas_mounted p = true ->
  context_available p = true ->
  (sinkFailsToStart p = true ->
   createVideo createObjectURL p s st = mkOutcome (mkHome true "") None)
  /\ (sinkFailsToStart p = false ->
      images_load p = true ->
      sinkProducesNothing p = true ->
      existsb isStop (run s getContext (clock p)) = true ->
      createVideo createObjectURL p s st
      = mkOutcome (mkHome false (createObjectURL (mkBlob 0 "video/webm")))
                  (Some (mkBlob 0 "video/webm"))).
Proof.
  intros Hn Hc Hx.
  apply Z.eqb_neq in Hn.
  unfold createVideo, sinkFailsToStart. rewrite Hn, Hc, Hx.
  cbn [negb orb isCreating videoUrl]. split.
  - intros F. apply orb_true_iff in F.
    destruct (recorder_constructs p); [ | reflexivity].
    destruct (recorder_starts p); [ | reflexivity].
    destruct F; discriminate.
  - intros F L N E. apply orb_false_iff in F. destruct F as [F1 F2].
    apply negb_false_iff in F1, F2. rewrite F1, F2, L, E.
    cbn [negb]. unfold sinkProducesNothing in N.
    rewrite (no_data_no_chunks _ N). reflexivity.
Qed.

Lemma sink_failure_outcomes_witness :
  createVideo (fun _ => "blob:video"%string) noRecorder
    (threePictures landscape panorama portrait "fade") (mkHome false "")
  = mkOutcome (mkHome true "") None
  /\ createVideo (fun _ => "blob:video"%string) silentRecorder
       (threePictures landscape panorama portrait "fade") (mkHome false "")
     = mkOutcome (mkHome false "blob:video") (Some (mkBlob 0 "video/webm")).
Proof.
  split.
  - apply (sink_failure_outcomes (fun _ => "blob:video"%string) noRecorder
             (threePictures landscape panorama portrait "fade")
             (mkHome false "")).
    + discriminate.
    + reflexivity.
    + reflexivity.
    + reflexivity.
  - apply (sink_failure_outcomes (fun _ => "blob:video"%string) silentRecorder
             (threePictures landscape panorama portrait "fade")
             (mkHome false "")).
    + discriminate.
    + reflexivity.
    + reflexivity.
    + reflexivity.
    + reflexivity.
    + reflexivity.
    + reflexivity.
Defined.

(** C8 as stated fails: with a recorder that starts and then delivers no
    data, the session of three pictures ends with the creating state left and
    a video URL shown, for a blob of size 0. *)
Lemma sink_failure_policy_fails : ~ sinkFailurePolicy.
Proof.
  intros H.
  specialize (H (fun _ => "blob:video"%string) silentRecorder
                (threePictures landscape panorama portrait "fade")
                (mkHome false "")).
  assert (completesWithoutArtifact
            (createVideo (fun _ => "blob:video"%string) silentRecorder
               (threePictures landscape panorama portrait "fade")
               (mkHome false "")) = true) as E by (vm_compute; reflexivity).
  rewrite H in E.
  - discriminate E.
  - intros b. discriminate.
  - right. reflexivity.
Qed.

(** ** More on cover fitting *)

Lemma ratio_eq_cross (a b c d : Q) :
  0 < b -> 0 < d -> a / b == c / d -> a * d == c * b.
Proof.
  intros Hb Hd H. apply Qle_antisym.
  - apply (proj1 (ratio_le_cross a b c d Hb Hd)). rewrite H. apply Qle_refl.
  - apply (proj1 (ratio_le_cross c d a b Hd Hb)). rewrite H. apply Qle_refl.
Qed.

Lemma gtb_compat (x x' y : Q) : x == x' -> JS.gtb x y = JS.gtb x' y.
Proof. intros H. unfold JS.gtb, JS.ltb. rewrite H. reflexivity. Qed.

(** X1. The picture is not distorted: the rectangle has the aspect ratio of
    the picture. *)
Theorem coverRect_keeps_aspect (pw ph fw fh : Q) :
  0 < pw -> 0 < ph -> 0 < fw -> 0 < fh ->
  let r := coverRect pw ph fw fh in
  drawWidth r / drawHeight r == pw / ph.
Proof.
  intros Hpw Hph Hfw Hfh r. subst r.
  destruct (Qlt_le_dec (fw / fh) (pw / ph)) as [H | H].
  - rewrite (coverRect_wide pw ph fw fh H). cbn [drawWidth drawHeight].
    field. split; lra.
  - rewrite (coverRect_tall pw ph fw fh H). cbn [drawWidth drawHeight].
    field. repeat split; lra.
Qed.

Lemma coverRect_keeps_aspect_witness :
  let r := coverRect 4000 3000 1920 1080 in
  drawWidth r / drawHeight r == 4000 / 3000.
Proof.
  apply (coverRect_keeps_aspect 4000 3000 1920 1080); reflexivity.
Defined.

(** X2. The rectangle is centred on the frame in both directions. *)
Theorem coverRect_centred (pw ph fw fh : Q) :
  0 < pw -> 0 < ph -> 0 < fw -> 0 < fh ->
  let r := coverRect pw ph fw fh in
  offsetX r + drawWidth r / 2 == fw / 2
  /\ offsetY r + drawHeight r / 2 == fh / 2.
Proof.
  intros Hpw Hph Hfw Hfh r. subst r.
  destruct (Qlt_le_dec (fw / fh) (pw / ph)) as [H | H].
  - rewrite (coverRect_wide pw ph fw fh H).
    cbn [drawWidth drawHeight offsetX offsetY]. split; field; lra.
  - rewrite (coverRect_tall pw ph fw fh H).
    cbn [drawWidth drawHeight offsetX offsetY]. split; field; lra.
Qed.

Lemma coverRect_centred_witness :
  let r := coverRect 1080 1920 1920 1080 in
  offsetX r + drawWidth r / 2 == 1920 / 2
  /\ offsetY r + drawHeight r / 2 == 1080 / 2.
Proof.
  apply (coverRect_centred 1080 1920 1920 1080); reflexivity.
Defined.

(** X3. The rectangle is the smallest one of the picture's aspect ratio that
    covers the frame: any size [w' x h'] with that ratio and at least the
    frame's width and height is at least as large in both directions. *)
Theorem coverRect_smallest_cover (pw ph fw fh w' h' : Q) :
  0 < pw -> 0 < ph -> 0 < fw -> 0 < fh ->
  w' * ph == h' * pw -> fw <= w' -> fh <= h' ->
  let r := coverRect pw ph fw fh in
  drawWidth r <= w' /\ drawHeight r <= h'.
Proof.
  intros Hpw Hph Hfw Hfh A W H' r. subst r.
  destruct (Qlt_le_dec (fw / fh) (pw / ph)) as [H | H].
  - rewrite (coverRect_wide pw ph fw fh H). cbn [drawWidth drawHeight].
    split; [ | exact H'].
    setoid_replace (pw * (fh / ph)) with (pw * fh / ph) by (field; lra).
    apply Qle_shift_div_r; [exact Hph | ]. rewrite A. nra.
  - rewrite (coverRect_tall pw ph fw fh H). cbn [drawWidth drawHeight].
    split; [exact W | ].
    setoid_replace (ph * (fw / pw)) with (ph * fw / pw) by (field; lra).
    apply Qle_shift_div_r; [exact Hpw | ]. rewrite <- A. nra.
Qed.

Lemma coverRect_smallest_cover_witness :
  let r := coverRect 4000 3000 1920 1080 in
  drawWidth r <= 2000 /\ drawHeight r <= 1500.
Proof.
  apply (coverRect_smallest_cover 4000 3000 1920 1080 2000 1500);
    try reflexivity; vm_compute; discriminate.
Defined.

(** X4. A picture with the aspect ratio of the frame is drawn on the frame
    exactly: no offset, no overhang. *)
Theorem coverRect_same_aspect (pw ph fw fh : Q) :
  0 < pw -> 0 < ph -> 0 < fw -> 0 < fh ->
  pw / ph == fw / fh ->
  let r := coverRect pw ph fw fh in
  drawWidth r == fw /\ drawHeight r == fh
  /\ offsetX r == 0 /\ offsetY r == 0.
Proof.
  intros Hpw Hph Hfw Hfh E r. subst r.
  assert (pw / ph <= fw / fh) as H by (rewrite E; apply Qle_refl).
  rewrite (coverRect_tall pw ph fw fh H).
  cbn [drawWidth drawHeight offsetX offsetY].
  pose proof (ratio_eq_cross pw ph fw fh Hph Hfh E) as C.
  assert (ph * (fw / pw) == fh) as D.
  { setoid_replace (ph * (fw / pw)) with (fw * ph / pw) by (field; lra).
    rewrite <- C. field. lra. }
  repeat split; try reflexivity; try exact D.
  rewrite D. field.
Qed.

Lemma coverRect_same_aspect_witness :
  let r := coverRect 3840 2160 1920 1080 in
  drawWidth r == 1920 /\ drawHeight r == 1080
  /\ offsetX r == 0 /\ offsetY r == 0.
Proof.
  apply (coverRect_same_aspect 3840 2160 1920 1080); reflexivity.
Defined.

(** X5. Only the aspect ratio of the picture matters: a picture [k] times as
    large in both directions gets the same rectangle. *)
Theorem coverRect_scale_invariant (k pw ph fw fh : Q) :
  0 < k -> 0 < pw -> 0 < ph -> 0 < fw -> 0 < fh ->
  let r := coverRect pw ph fw fh in
  let r' := coverRect (k * pw) (k * ph) fw fh in
  drawWidth r' == drawWidth r /\ drawHeight r' == drawHeight r
  /\ offsetX r' == offsetX r /\ offsetY r' == offsetY r.
Proof.
  intros Hk Hpw Hph Hfw Hfh r r'. subst r r'.
  assert (k * pw / (k * ph) == pw / ph) as E by (field; split; lra).
  unfold coverRect. cbv zeta. rewrite (gtb_compat _ _ (fw / fh) E).
  destruct (JS.gtb (pw / ph) (fw / fh));
    cbn [drawWidth drawHeight offsetX offsetY];
    repeat split; try reflexivity; field; repeat split; lra.
Qed.

Lemma coverRect_scale_invariant_witness :
  let r := coverRect 4000 3000 1920 1080 in
  let r' := coverRect (2 * 4000) (2 * 3000) 1920 1080 in
  drawWidth r' == drawWidth r /\ drawHeight r' == drawHeight r
  /\ offsetX r' == offsetX r /\ offsetY r' == offsetY r.
Proof.
  apply (coverRect_scale_invariant 2 4000 3000 1920 1080); reflexivity.
Defined.

(** ** More on the timeline *)

Section Slots.

Variable s : Session.
Hypothesis duration_pos : 0 < imageDuration s.





Lemma currentIndex_monotone (t1 t2 : Q) :
  t1 <= t2 -> (currentIndexAt s t1 <= currentIndexAt s t2)%Z.
Proof using duration_pos.
  intros H. unfold currentIndexAt, JS.floor. apply Qfloor_resp_le.
  unfold Qdiv. apply Qmult_le_compat_r; [exact H | ].
  apply Qinv_le_0_compat. lra.
Qed.

End Slots.





(** X8. Pictures are shown in order: a later sample never has a smaller
    current index. *)
Theorem pictures_in_order (s : Session) (t1 t2 : Q) :
  0 < imageDuration s -> t1 <= t2 ->
  (currentIndexAt s t1 <= currentIndexAt s t2)%Z.
Proof. intros D H. apply currentIndex_monotone; assumption. Qed.

Lemma pictures_in_order_witness :
  let s := threePictures landscape panorama portrait "fade" in
  (currentIndexAt s 2999 <= currentIndexAt s 3000)%Z.
Proof.
  apply (pictures_in_order
           (threePictures landscape panorama portrait "fade") 2999 3000).
  - reflexivity.
  - vm_compute. discriminate.
Defined.



(** X10. With a duration of zero or less (the duration field cleared or set
    to 0) the timeline is empty: the first tick stops the recorder and no
    frame is ever painted. *)
Theorem empty_timeline_stops_at_once (s : Session) (ctx : Context2D)
    (t : Q) (later : list Q) :
  duration s <= 0 -> 0 <= t ->
  renderFrame s ctx t = Stopped
  /\ run s ctx (t :: later) = [RecorderStop].
Proof.
  intros D H0.
  assert (totalDuration s <= t) as E.
  { pose proof (totalDuration_nonpos s D). lra. }
  pose proof (renderFrame_finished s ctx t E) as R.
  split; [exact R | ]. cbn [run]. rewrite R. reflexivity.
Qed.

Lemma empty_timeline_stops_at_once_witness :
  let s := mkSession [landscape; panorama] 0 "fade" in
  renderFrame s getContext 0 = Stopped
  /\ run s getContext (0 :: [33; 67]) = [RecorderStop].
Proof.
  apply (empty_timeline_stops_at_once
           (mkSession [landscape; panorama] 0 "fade") getContext 0 [33; 67]);
    vm_compute; discriminate.
Defined.

(** X11. When the per-image duration does not exceed the transition
    duration, no tick ever draws a picture alone: every frame of the session
    is a transition blend. *)
Theorem short_slots_always_blend (s : Session) (ctx : Context2D) (t : Q) :
  imageDuration s <= transitionDuration ->
  0 <= t -> t < totalDuration s ->
  renderFrame s ctx t
  = thenSetTimeout
      (compositeFrame (transition s) (clearFrame ctx)
         (element (loadedImages s) (currentIndexAt s t))
         (element (loadedImages s) (nextIndexAt s t))
         (transitionProgressAt s (timeInCurrentImageAt s t))).
Proof.
  intros D H0 H1.
  pose proof (rem_nonneg t (imageDuration s)
                (running_duration_nonneg s t H0 H1) H0) as L.
  fold (timeInCurrentImageAt s t) in L.
  unfold renderFrame. rewrite (not_finished s t H1). cbv zeta.
  assert (JS.ltb (timeInCurrentImageAt s t)
            (imageDuration s - transitionDuration) = false) as E.
  { apply ltb_ge.
    set (ti := timeInCurrentImageAt s t) in *. clearbody ti.
    set (d := imageDuration s) in *. clearbody d.
    set (w := transitionDuration) in *. clearbody w. lra. }
  rewrite E. reflexivity.
Qed.

Lemma short_slots_always_blend_witness :
  renderFrame shortProgram getContext 0
  = thenSetTimeout
      (compositeFrame (transition shortProgram) (clearFrame getContext)
         (element (loadedImages shortProgram) (currentIndexAt shortProgram 0))
         (element (loadedImages shortProgram) (nextIndexAt shortProgram 0))
         (transitionProgressAt shortProgram
            (timeInCurrentImageAt shortProgram 0))).
Proof.
  apply (short_slots_always_blend shortProgram getContext 0).
  - vm_compute. discriminate.
  - vm_compute. discriminate.
  - reflexivity.
Defined.

(** ** Ticks that end the loop *)

Lemma renderFrame_stopped_inv (s : Session) (ctx : Context2D) (t : Q) :
  renderFrame s ctx t = Stopped -> totalDuration s <= t.
Proof.
  unfold renderFrame. destruct (JS.geb t (totalDuration s)) eqn:E.
  - intros _. apply geb_ge. exact E.
  - cbv zeta. unfold thenSetTimeout.
    destruct (if JS.ltb _ _ then _ else _); discriminate.
Qed.

Lemma renderFrame_rescheduled_inv (s : Session) (ctx ctx' : Context2D) (t : Q) :
  renderFrame s ctx t = Rescheduled ctx' -> t < totalDuration s.
Proof.
  unfold renderFrame. destruct (JS.geb t (totalDuration s)) eqn:E.
  - discriminate.
  - intros _. apply geb_lt. exact E.
Qed.

(** A sample before the start time reads the array at a negative index. *)
Lemma currentImg_undefined (s : Session) (t : Q) :
  0 < imageDuration s -> t < 0 ->
  element (loadedImages s) (currentIndexAt s t) = None.
Proof.
  intros D H. unfold element.
  assert (currentIndexAt s t < 0)%Z as N.
  { unfold currentIndexAt, JS.floor. rewrite Zlt_Qlt.
    apply Qle_lt_trans with (t / imageDuration s); [apply Qfloor_le | ].
    apply Qlt_shift_div_r; [exact D | ]. change (inject_Z 0) with 0. lra. }
  apply Z.ltb_lt in N. rewrite N. reflexivity.
Qed.

(** X12. If the clock steps back before the start time, a tick with one of
    the three styles reads [loadedImages] at a negative index and throws a
    [TypeError]; no timer is set and the recorder is never stopped, so the
    session ends there. *)
Theorem negative_time_throws (s : Session) (ctx : Context2D)
    (t : Q) (later : list Q) :
  knownStyle (transition s) ->
  0 < imageDuration s -> t < 0 ->
  renderFrame s ctx t = Uncaught JS.TypeError
  /\ run s ctx (t :: later) = [Exception JS.TypeError].
Proof.
  intros K D H.
  assert (renderFrame s ctx t = Uncaught JS.TypeError) as R.
  { assert (t < totalDuration s) as U
      by (pose proof (totalDuration_of_pos s D); lra).
    unfold renderFrame. rewrite (not_finished s t U). cbv zeta.
    rewrite (currentImg_undefined s t D H).
    destruct (JS.ltb _ _); [reflexivity | ].
    unfold compositeFrame.
    destruct K as [K | [K | K]]; rewrite K;
      cbn [String.eqb Ascii.eqb Bool.eqb andb]; reflexivity. }
  split; [exact R | ]. cbn [run]. rewrite R. reflexivity.
Qed.

Lemma negative_time_throws_witness :
  let s := threePictures landscape panorama portrait "zoom" in
  renderFrame s getContext (-20) = Uncaught JS.TypeError
  /\ run s getContext (-20 :: [14; 47]) = [Exception JS.TypeError].
Proof.
  apply (negative_time_throws
           (threePictures landscape panorama portrait "zoom") getContext
           (-20) [14; 47]).
  - right. right. reflexivity.
  - reflexivity.
  - reflexivity.
Defined.

(** X13. The recorder is never stopped early: if a session stops it, the
    clock sample of that tick had reached the total duration and every
    earlier sample was below it. *)
Theorem stop_only_at_end (s : Session) (clock : list Q) :
  forall ctx : Context2D,
  existsb isStop (run s ctx clock) = true ->
  exists before t after,
    clock = before ++ t :: after
    /\ totalDuration s <= t
    /\ Forall (fun u => u < totalDuration s) before.
Proof.
  induction clock as [ | t later IH]; intros ctx H; cbn [run] in H.
  - discriminate H.
  - destruct (renderFrame s ctx t) as [ | ctx' | e] eqn:R.
    + exists [], t, later. repeat split.
      * apply (renderFrame_stopped_inv s ctx t R).
      * constructor.
    + cbn [existsb isStop orb] in H.
      destruct (IH ctx' H) as (before & u & after & E & U & F).
      exists (t :: before), u, after. repeat split.
      * rewrite E. reflexivity.
      * exact U.
      * constructor; [ | exact F].
        apply (renderFrame_rescheduled_inv s ctx ctx' t R).
    + discriminate H.
Qed.

Lemma stop_only_at_end_witness :
  let s := threePictures landscape panorama portrait "slide" in
  exists before t after,
    [0; 4000; 9001; 9040] = before ++ t :: after
    /\ totalDuration s <= t
    /\ Forall (fun u => u < totalDuration s) before.
Proof.
  apply (stop_only_at_end
           (threePictures landscape panorama portrait "slide")
           [0; 4000; 9001; 9040] getContext).
  vm_compute. reflexivity.
Defined.

(** ** What every painted frame satisfies *)

Lemma fillStyle_set_globalAlpha (ctx : Context2D) (a : Q) :
  fillStyle (set_globalAlpha ctx a) = fillStyle ctx.
Proof. unfold set_globalAlpha. destruct (_ && _); reflexivity. Qed.

Lemma fillStyle_drawImage (ctx : Context2D) (img : HTMLImageElement)
    (dx dy dw dh : Q) :
  fillStyle (drawImage ctx img dx dy dw dh) = fillStyle ctx.
Proof. reflexivity. Qed.

(** Source-over on an opaque pixel leaves it opaque. *)
Lemma drawImage_keeps_alpha (ctx : Context2D) (img : HTMLImageElement)
    (dx dy dw dh : Q) (i j : Z) :
  alpha (bitmap ctx i j) == 1 ->
  alpha (bitmap (drawImage ctx img dx dy dw dh) i j) == 1.
Proof.
  intros H. rewrite bitmap_drawImage. destruct (inRect _ _ _ _ _ _).
  - unfold sourceOver. cbn [alpha]. rewrite H. ring.
  - exact H.
Qed.

(** X14. Every tick that paints hands the context back as it found it: no
    transformation, full opacity, the same stack of saved states (each
    [save] is matched by a [restore]), and a black fill style. *)
Theorem renderFrame_restores_context (s : Session) (ctx ctx' : Context2D)
    (t : Q) :
  ready ctx ->
  renderFrame s ctx t = Rescheduled ctx' ->
  ready ctx' /\ stack ctx' = stack ctx /\ fillStyle ctx' = black.
Proof.
  intros R. pose proof (clearFrame_ready ctx R) as [M A].
  assert (stack (clearFrame ctx) = stack ctx) as S by reflexivity.
  assert (fillStyle (clearFrame ctx) = black) as F by reflexivity.
  unfold renderFrame. destruct (JS.geb _ _); [discriminate | ]. cbv zeta.
  generalize (transitionProgressAt s (timeInCurrentImageAt s t)). intros p.
  set (base := clearFrame ctx) in *. clearbody base.
  destruct (element _ (currentIndexAt s t)) as [cur | ];
    destruct (element _ (nextIndexAt s t)) as [next | ];
    destruct (JS.ltb _ _);
    unfold compositeFrame, drawImageCover;
    try destruct (String.eqb (transition s) "fade");
    try destruct (String.eqb (transition s) "slide");
    try destruct (String.eqb (transition s) "zoom");
    cbn [JS.bind thenSetTimeout]; intros E; try discriminate E;
    injection E as <-; unfold ready; canvas_eval;
    rewrite ?fillStyle_set_globalAlpha, ?fillStyle_drawImage;
    canvas_eval;
    rewrite ?fillStyle_set_globalAlpha, ?fillStyle_drawImage;
    repeat split; assumption || reflexivity.
Qed.

Lemma renderFrame_restores_context_witness :
  let s := threePictures landscape panorama portrait "slide" in
  exists ctx',
    renderFrame s getContext 2800 = Rescheduled ctx'
    /\ ready ctx' /\ stack ctx' = stack getContext /\ fillStyle ctx' = black.
Proof.
  intros s.
  destruct (renderFrame_running s getContext 2800) as [ctx' E].
  - vm_compute. reflexivity.
  - vm_compute. discriminate.
  - vm_compute. reflexivity.
  - vm_compute. reflexivity.
  - exists ctx'. split; [exact E | ].
    apply (renderFrame_restores_context s getContext ctx' 2800).
    + split; reflexivity.
    + exact E.
Defined.

(** X15. Every painted frame is opaque: whatever the style, the pictures and
    their transparency, no pixel of the frame is left with an alpha below
    one. *)
Theorem frames_are_opaque (s : Session) (ctx ctx' : Context2D) (t : Q)
    (i j : Z) :
  ready ctx ->
  renderFrame s ctx t = Rescheduled ctx' ->
  inFrame i j ->
  alpha (bitmap ctx' i j) == 1.
Proof.
  intros R E F.
  pose proof (clearFrame_black ctx i j R F) as (_ & _ & _ & A).
  change (alpha black) with 1 in A.
  revert E. unfold renderFrame. destruct (JS.geb _ _); [discriminate | ].
  cbv zeta.
  generalize (transitionProgressAt s (timeInCurrentImageAt s t)). intros p.
  set (base := clearFrame ctx) in *. clearbody base.
  destruct (element _ (currentIndexAt s t)) as [cur | ];
    destruct (element _ (nextIndexAt s t)) as [next | ];
    destruct (JS.ltb _ _);
    unfold compositeFrame, drawImageCover;
    try destruct (String.eqb (transition s) "fade");
    try destruct (String.eqb (transition s) "slide");
    try destruct (String.eqb (transition s) "zoom");
    cbn [JS.bind thenSetTimeout]; intros E; try discriminate E;
    injection E as <-;
    repeat (canvas_eval; try apply drawImage_keeps_alpha);
    exact A.
Qed.

Lemma frames_are_opaque_witness :
  let s := threePictures landscape glass portrait "zoom" in
  exists ctx',
    renderFrame s getContext 2800 = Rescheduled ctx'
    /\ alpha (bitmap ctx' 1000 500) == 1.
Proof.
  intros s.
  destruct (renderFrame_running s getContext 2800) as [ctx' E].
  - vm_compute. reflexivity.
  - vm_compute. discriminate.
  - vm_compute. reflexivity.
  - vm_compute. reflexivity.
  - exists ctx'. split; [exact E | ].
    apply (frames_are_opaque s getContext ctx' 2800 1000 500).
    + split; reflexivity.
    + exact E.
    + unfold inFrame. lia.
Defined.

(** A point of the destination rectangle maps to a point of the picture. *)
Lemma source_point_bounds (lo len u w : Q) :
  0 < w -> 0 < len -> lo <= u -> u < lo + len ->
  0 <= (u - lo) * w / len /\ (u - lo) * w / len < w.
Proof.
  intros W L A B. split.
  - apply Qle_shift_div_l; [exact L | ]. nra.
  - apply Qlt_shift_div_r; [exact L | ]. nra.
Qed.

(** X16. A picture of positive size drawn alone is stretched over the whole
    frame: the centre of every frame pixel lies in the rectangle passed to
    [drawImage], and the point of the picture that is mapped onto it lies
    inside the picture, at [0 <= x < width] and [0 <= y < height]: the draw
    reaches every pixel of the frame and reads nothing outside the picture. *)
Theorem picture_alone_fills_frame (ctx : Context2D) (img : HTMLImageElement)
    (i j : Z) :
  ready ctx -> wellSized img -> inFrame i j ->
  let r := coverRect (inject_Z (width img)) (inject_Z (height img))
                     canvas_width canvas_height in
  let u := userX (ctm (clearFrame ctx)) i in
  let v := userY (ctm (clearFrame ctx)) j in
  pictureAlone ctx img
  = JS.Normal (drawImage (clearFrame ctx) img (offsetX r) (offsetY r)
                         (drawWidth r) (drawHeight r))
  /\ inRect (offsetX r) (offsetY r) (drawWidth r) (drawHeight r) u v = true
  /\ (0 <= (u - offsetX r) * inject_Z (width img) / drawWidth r
      /\ (u - offsetX r) * inject_Z (width img) / drawWidth r
         < inject_Z (width img))
  /\ (0 <= (v - offsetY r) * inject_Z (height img) / drawHeight r
      /\ (v - offsetY r) * inject_Z (height img) / drawHeight r
         < inject_Z (height img)).
Proof.
  intros R W F r u v.
  pose proof (clearFrame_ready ctx R) as [M A].
  split; [reflexivity | ].
  subst u v. rewrite M.
  pose proof (cover_contains_frame img identity i j W
                (matrix_eq_refl identity) F) as C.
  cbv zeta in C. fold r in C.
  destruct W as [W1 W2].
  assert (0 < inject_Z (width img)) as Wq
    by (change 0 with (inject_Z 0); rewrite <- Zlt_Qlt; exact W1).
  assert (0 < inject_Z (height img)) as Hq
    by (change 0 with (inject_Z 0); rewrite <- Zlt_Qlt; exact W2).
  assert (0 < drawWidth r /\ 0 < drawHeight r) as [Dw Dh].
  { assert (0 < canvas_width) as Cw by reflexivity.
    assert (0 < canvas_height) as Ch by reflexivity.
    pose proof (coverRect_bounds _ _ _ _ Wq Hq Cw Ch) as B. cbv zeta in B.
    fold r in B. destruct B as (B1 & B2 & _). split; lra. }
  split; [exact C | ].
  unfold inRect in C. apply andb_true_iff in C.
  destruct C as [Cx Cy]. apply within_true in Cx, Cy.
  destruct Cx as [X0 X1]. destruct Cy as [Y0 Y1].
  split; apply source_point_bounds; assumption.
Qed.

Lemma picture_alone_fills_frame_witness :
  let r := coverRect (inject_Z (width panorama)) (inject_Z (height panorama))
                     canvas_width canvas_height in
  let u := userX (ctm (clearFrame getContext)) 0 in
  let v := userY (ctm (clearFrame getContext)) 1079 in
  pictureAlone getContext panorama
  = JS.Normal (drawImage (clearFrame getContext) panorama
                         (offsetX r) (offsetY r) (drawWidth r) (drawHeight r))
  /\ inRect (offsetX r) (offsetY r) (drawWidth r) (drawHeight r) u v = true
  /\ (0 <= (u - offsetX r) * inject_Z (width panorama) / drawWidth r
      /\ (u - offsetX r) * inject_Z (width panorama) / drawWidth r
         < inject_Z (width panorama))
  /\ (0 <= (v - offsetY r) * inject_Z (height panorama) / drawHeight r
      /\ (v - offsetY r) * inject_Z (height panorama) / drawHeight r
         < inject_Z (height panorama)).
Proof.
  apply (picture_alone_fills_frame getContext panorama 0 1079).
  - split; reflexivity.
  - split; reflexivity.
  - unfold inFrame. lia.
Defined.

(** X17. Fade is a linear cross-fade: when the next picture has positive size
    and no transparency, every pixel of the blend at progress [p] in
    [[0, 1]] is [(1 - p)] times the pixel of the current picture drawn alone
    plus [p] times the pixel of the next picture drawn alone. *)
Theorem fade_is_linear (ctx : Context2D)
    (currentImg nextImg : HTMLImageElement) (p : Q) (i j : Z) :
  ready ctx -> wellSized nextImg -> opaque nextImg ->
  0 <= p -> p <= 1 -> inFrame i j ->
  exists f a b,
    transitionFrame "fade" ctx currentImg nextImg p = JS.Normal f
    /\ pictureAlone ctx currentImg = JS.Normal a
    /\ pictureAlone ctx nextImg = JS.Normal b
    /\ rgba_eq (bitmap f i j) (mix p (bitmap a i j) (bitmap b i j)).
Proof.
  intros R W O P0 P1 F.
  pose proof (clearFrame_ready ctx R) as [M A].
  unfold transitionFrame, pictureAlone, compositeFrame, drawImageCover.
  cbn [String.eqb Ascii.eqb Bool.eqb andb JS.bind].
  set (base := clearFrame ctx) in *. clearbody base.
  pose proof (cover_contains_frame nextImg identity i j W
                (matrix_eq_refl identity) F) as C. cbv zeta in C.
  eexists. eexists. eexists.
  split; [reflexivity | ]. split; [reflexivity | ]. split; [reflexivity | ].
  rewrite (set_globalAlpha_valid _ p P0 P1).
  rewrite bitmap_set_globalAlpha.
  rewrite (bitmap_drawImage _ nextImg), (bitmap_drawImage base nextImg).
  cbn [ctm globalAlpha bitmap]. rewrite ctm_drawImage, M, C, A.
  set (T := sample nextImg _ _ _ _ _ _).
  assert (alpha T == 1) as AT by apply O.
  set (X := bitmap (drawImage base currentImg _ _ _ _) i j).
  unfold rgba_eq, mix, sourceOver. cbn [red green blue alpha].
  repeat split; rewrite AT; ring.
Qed.

Lemma fade_is_linear_witness :
  exists f a b,
    transitionFrame "fade" getContext glass portrait (1 # 4) = JS.Normal f
    /\ pictureAlone getContext glass = JS.Normal a
    /\ pictureAlone getContext portrait = JS.Normal b
    /\ rgba_eq (bitmap f 7 9) (mix (1 # 4) (bitmap a 7 9) (bitmap b 7 9)).
Proof.
  apply (fade_is_linear getContext glass portrait (1 # 4) 7 9).
  - split; reflexivity.
  - split; reflexivity.
  - intros x y. reflexivity.
  - vm_compute. discriminate.
  - vm_compute. discriminate.
  - unfold inFrame. lia.
Defined.

(** ** The recorded data and the end of a session *)

Lemma ondataavailable_fold (recorded chunks : list Blob) :
  fold_left ondataavailable recorded chunks
  = chunks ++ filter (fun b => (0 <? size b)%nat) recorded.
Proof.
  revert chunks. induction recorded as [ | b recorded IH]; intros chunks.
  - cbn [fold_left filter]. rewrite app_nil_r. reflexivity.
  - cbn [fold_left filter]. rewrite IH. unfold ondataavailable.
    destruct (0 <? size b)%nat.
    + rewrite <- app_assoc. reflexivity.
    + reflexivity.
Qed.

Lemma totalSize_nonempty (blobs : list Blob) :
  totalSize (filter (fun b => (0 <? size b)%nat) blobs) = totalSize blobs.
Proof.
  induction blobs as [ | b blobs IH]; [reflexivity | ].
  cbn [filter]. destruct (0 <? size b)%nat eqn:E.
  - cbn [totalSize fold_right]. fold (totalSize blobs).
    fold (totalSize (filter (fun b => (0 <? size b)%nat) blobs)).
    rewrite IH. reflexivity.
  - apply Nat.ltb_ge in E. cbn [totalSize fold_right].
    fold (totalSize blobs). rewrite IH. lia.
Qed.

Lemma stop_blob_size (recorded : list Blob) (ty : string) :
  size (newBlob (fold_left ondataavailable recorded []) ty)
  = totalSize recorded.
Proof.
  rewrite ondataavailable_fold. cbn [app]. unfold newBlob. cbn [size].
  exact (totalSize_nonempty recorded).
Qed.

(** X18. The chunks kept by [ondataavailable] are the non-empty blobs, in the
    order received, and no recorded byte is lost: the blob built by the stop
    handler has the total size of everything the recorder delivered. *)
Theorem recorded_data_is_kept (recorded : list Blob) (ty : string) :
  fold_left ondataavailable recorded []
  = filter (fun b => (0 <? size b)%nat) recorded
  /\ size (newBlob (fold_left ondataavailable recorded []) ty)
     = totalSize recorded.
Proof.
  split; [ | apply stop_blob_size].
  rewrite ondataavailable_fold. reflexivity.
Qed.




(** X20. As long as a session that got past the first guard has published
    no video, the page is in the creating state: the banner shows, the create
    button is disabled whatever images are selected, and there is nothing to
    download.  Nothing else ever leaves that state, so a missing 2D context,
    a recorder that does not start, a picture that does not load or an
    exception in a tick leaves the page there. *)
Theorem unfinished_session_is_stuck (createObjectURL : Blob -> string)
    (p : Platform) (s : Session) (st : HomeState) (images : list ImageFile) :
  images_length s <> 0%Z ->
  canvas_mounted p = true ->
  artifact (createVideo createObjectURL p s st) = None ->
  let st' := home (createVideo createObjectURL p s st) in
  st' = mkHome true ""
  /\ showsLoading st' = true
  /\ createDisabled st' images = true
  /\ downloadVideo st' = None.
Proof.
  intros N C. apply Z.eqb_neq in N.
  unfold createVideo. rewrite N, C. cbn [negb orb isCreating videoUrl].
  destruct (context_available p); [ | intros _; repeat split].
  destruct (recorder_constructs p); [ | intros _; repeat split].
  destruct (recorder_starts p); [ | intros _; repeat split].
  destruct (images_load p); [ | intros _; repeat split].
  cbn [negb].
  destruct (existsb isStop (run s getContext (clock p)));
    [ | intros _; repeat split].
  unfold onstop. cbn [artifact]. discriminate.
Qed.

Lemma unfinished_session_is_stuck_witness :
  let s := threePictures landscape panorama portrait "fade" in
  let url := fun _ : Blob => "blob:video"%string in
  let st' := home (createVideo url noContext s (mkHome false "blob:old")) in
  st' = mkHome true ""
  /\ showsLoading st' = true
  /\ createDisabled st' [mkImageFile photo "blob:1"] = true
  /\ downloadVideo st' = None.
Proof.
  apply (unfinished_session_is_stuck
           (fun _ : Blob => "blob:video"%string) noContext
           (threePictures landscape panorama portrait "fade")
           (mkHome false "blob:old") [mkImageFile photo "blob:1"]).
  - discriminate.
  - reflexivity.
  - reflexivity.
Defined.

(** ** The list of selected images *)

Lemma createObjectURLs_files (mint : nat -> string) (files : list File) :
  forall next, map file (fst (createObjectURLs mint next files)) = files.
Proof.
  induction files as [ | f files IH]; intros next; [reflexivity | ].
  cbn [createObjectURLs]. specialize (IH (S next)).
  destruct (createObjectURLs mint (S next) files) as [others next'].
  cbn [fst map file] in *. rewrite IH. reflexivity.
Qed.

Lemma createObjectURLs_urls (mint : nat -> string) (files : list File) :
  forall next,
  map url (fst (createObjectURLs mint next files))
  = map mint (seq next (List.length files)).
Proof.
  induction files as [ | f files IH]; intros next; [reflexivity | ].
  cbn [createObjectURLs]. specialize (IH (S next)).
  destruct (createObjectURLs mint (S next) files) as [others next'].
  cbn [fst map url List.length seq] in *. rewrite IH. reflexivity.
Qed.

Lemma createObjectURLs_next (mint : nat -> string) (files : list File) :
  forall next,
  snd (createObjectURLs mint next files) = (next + List.length files)%nat.
Proof.
  induction files as [ | f files IH]; intros next.
  - cbn. lia.
  - cbn [createObjectURLs]. specialize (IH (S next)).
    destruct (createObjectURLs mint (S next) files) as [others next'].
    cbn [snd List.length] in *. lia.
Qed.

Lemma createObjectURLs_app (mint : nat -> string) (fs1 fs2 : list File) :
  forall next,
  createObjectURLs mint next (fs1 ++ fs2)
  = (fst (createObjectURLs mint next fs1)
     ++ fst (createObjectURLs mint
               (snd (createObjectURLs mint next fs1)) fs2),
     snd (createObjectURLs mint
            (snd (createObjectURLs mint next fs1)) fs2)).
Proof.
  induction fs1 as [ | f fs1 IH]; intros next.
  - cbn [app createObjectURLs fst snd].
    destruct (createObjectURLs mint next fs2). reflexivity.
  - cbn [app createObjectURLs]. rewrite (IH (S next)).
    destruct (createObjectURLs mint (S next) fs1) as [others next'].
    cbn [fst snd app]. reflexivity.
Qed.

Lemma addImages_unfold (mint : nat -> string) (next : nat)
    (prev : list ImageFile) (files : list File) :
  addImages mint next prev files
  = (prev ++ fst (createObjectURLs mint next (filter isImage files)),
     snd (createObjectURLs mint next (filter isImage files))).
Proof.
  unfold addImages.
  destruct (createObjectURLs mint next (filter isImage files)). reflexivity.
Qed.

(** X21. [addImages] keeps the images already selected, untouched and in
    front, and appends exactly the files whose type starts with [image/], in
    the order given; it mints one URL per appended image and none for the
    other files. *)
Theorem addImages_appends_images (mint : nat -> string) (next : nat)
    (prev : list ImageFile) (files : list File) :
  let result := addImages mint next prev files in
  map file (fst result) = map file prev ++ filter isImage files
  /\ firstn (List.length prev) (fst result) = prev
  /\ snd result = (next + List.length (filter isImage files))%nat
  /\ List.length (fst result)
     = (List.length prev + List.length (filter isImage files))%nat.
Proof.
  cbv zeta. rewrite addImages_unfold. cbn [fst snd].
  split; [ | split; [ | split]].
  - rewrite map_app, createObjectURLs_files. reflexivity.
  - rewrite firstn_app, Nat.sub_diag, firstn_all, firstn_O, app_nil_r.
    reflexivity.
  - apply createObjectURLs_next.
  - rewrite length_app. f_equal.
    rewrite <- (length_map file), createObjectURLs_files. reflexivity.
Qed.

(** X22. Adding files in two steps gives the same list, with the same URLs,
    as adding them all at once. *)
Theorem addImages_in_two_steps (mint : nat -> string) (next : nat)
    (prev : list ImageFile) (fs1 fs2 : list File) :
  let first := addImages mint next prev fs1 in
  addImages mint (snd first) (fst first) fs2
  = addImages mint next prev (fs1 ++ fs2).
Proof.
  cbv zeta. rewrite !addImages_unfold. cbn [fst snd].
  rewrite filter_app, createObjectURLs_app. cbn [fst snd].
  rewrite app_assoc. reflexivity.
Qed.

Lemma filterByIndex_keeps_all {A : Type} (arr : list A) :
  forall first target : nat,
  (target < first)%nat ->
  map snd (filter (fun entry => negb (fst entry =? target)%nat)
                  (combine (seq first (List.length arr)) arr))
  = arr.
Proof.
  induction arr as [ | a arr IH]; intros first target H; [reflexivity | ].
  cbn [List.length seq combine filter fst].
  assert ((first =? target)%nat = false) as E by (apply Nat.eqb_neq; lia).
  rewrite E. cbn [negb map snd]. f_equal. apply IH. lia.
Qed.

Lemma filterByIndex_drops_one {A : Type} (arr : list A) :
  forall first k : nat,
  map snd (filter (fun entry => negb (fst entry =? k + first)%nat)
                  (combine (seq first (List.length arr)) arr))
  = firstn k arr ++ skipn (S k) arr.
Proof.
  induction arr as [ | a arr IH]; intros first k.
  - destruct k; reflexivity.
  - cbn [List.length seq combine filter fst]. destruct k as [ | k].
    + cbn [Nat.add]. rewrite Nat.eqb_refl. cbn [negb firstn skipn app].
      apply filterByIndex_keeps_all. lia.
    + assert ((first =? S k + first)%nat = false) as E
        by (apply Nat.eqb_neq; lia).
      rewrite E. cbn [negb map snd firstn skipn app]. f_equal.
      replace (S k + first)%nat with (k + S first)%nat by lia.
      apply IH.
Qed.

Lemma removeImage_split (index : nat) (prev : list ImageFile) :
  removeImage index prev = firstn index prev ++ skipn (S index) prev.
Proof.
  unfold removeImage, filterByIndex.
  rewrite <- (filterByIndex_drops_one prev 0 index).
  rewrite Nat.add_0_r. reflexivity.
Qed.

(** X23. [removeImage] drops the image at the given position and keeps all
    others in order; a position past the end removes nothing. *)
Theorem removeImage_drops_one (index : nat) (prev : list ImageFile) :
  removeImage index prev = firstn index prev ++ skipn (S index) prev
  /\ ((index < List.length prev)%nat ->
      S (List.length (removeImage index prev)) = List.length prev)
  /\ ((List.length prev <= index)%nat -> removeImage index prev = prev).
Proof.
  split; [apply removeImage_split | ]. rewrite removeImage_split. split.
  - intros H. rewrite length_app, length_firstn, length_skipn. lia.
  - intros H. rewrite firstn_all2 by exact H.
    rewrite skipn_all2 by lia. apply app_nil_r.
Qed.

(** X24. Adding one image and removing it again gives back the list as it
    was. *)
Theorem add_then_remove (mint : nat -> string) (next : nat)
    (prev : list ImageFile) (f : File) :
  isImage f = true ->
  removeImage (List.length prev) (fst (addImages mint next prev [f])) = prev.
Proof.
  intros H. rewrite removeImage_split, addImages_unfold.
  cbn [filter fst]. rewrite H. cbn [createObjectURLs fst].
  rewrite firstn_app, Nat.sub_diag, firstn_all, firstn_O, app_nil_r.
  rewrite skipn_app, skipn_all2 by lia.
  replace (S (List.length prev) - List.length prev)%nat with 1%nat by lia.
  cbn [skipn app]. apply app_nil_r.
Qed.

Lemma add_then_remove_witness :
  removeImage (List.length [mkImageFile scan (sampleMint 0)])
    (fst (addImages sampleMint 1 [mkImageFile scan (sampleMint 0)] [photo]))
  = [mkImageFile scan (sampleMint 0)].
Proof.
  apply (add_then_remove sampleMint 1 [mkImageFile scan (sampleMint 0)] photo).
  reflexivity.
Defined.

(** X25. Files that are not images are ignored altogether: if no file has a
    type starting with [image/], the list is unchanged and no URL is minted,
    whether the files come from the picker or from a drop; a picker event
    without a file list changes nothing either. *)
Theorem non_images_are_ignored (mint : nat -> string) (next : nat)
    (classes : list string) (prev : list ImageFile) (files : list File) :
  Forall (fun f => isImage f = false) files ->
  addImages mint next prev files = (prev, next)
  /\ handleFileSelect mint next prev (Some files) = (prev, next)
  /\ snd (handleDrop mint next classes prev files) = (prev, next)
  /\ handleFileSelect mint next prev None = (prev, next).
Proof.
  intros H.
  assert (filter isImage files = []) as E.
  { induction H as [ | f files Hf _ IH]; [reflexivity | ].
    cbn [filter]. rewrite Hf. exact IH. }
  assert (addImages mint next prev files = (prev, next)) as A.
  { rewrite addImages_unfold, E. cbn [createObjectURLs fst snd].
    rewrite app_nil_r. reflexivity. }
  split; [exact A | ]. split; [exact A | ]. split; [exact A | ].
  unfold handleFileSelect. rewrite addImages_unfold.
  cbn [filter createObjectURLs fst snd]. rewrite app_nil_r. reflexivity.
Qed.

Lemma non_images_are_ignored_witness :
  addImages sampleMint 1 [mkImageFile scan (sampleMint 0)] [notes]
  = ([mkImageFile scan (sampleMint 0)], 1%nat)
  /\ handleFileSelect sampleMint 1 [mkImageFile scan (sampleMint 0)]
       (Some [notes])
     = ([mkImageFile scan (sampleMint 0)], 1%nat)
  /\ snd (handleDrop sampleMint 1 ["upload-area"%string; "dragover"%string]
            [mkImageFile scan (sampleMint 0)] [notes])
     = ([mkImageFile scan (sampleMint 0)], 1%nat)
  /\ handleFileSelect sampleMint 1 [mkImageFile scan (sampleMint 0)] None
     = ([mkImageFile scan (sampleMint 0)], 1%nat).
Proof.
  apply (non_images_are_ignored sampleMint 1
           ["upload-area"%string; "dragover"%string]
           [mkImageFile scan (sampleMint 0)] [notes]).
  repeat constructor.
Defined.

Lemma removeImage_incl (index : nat) (images : list ImageFile)
    (img : ImageFile) :
  In img (removeImage index images) -> In img images.
Proof.
  rewrite removeImage_split. intros H.
  rewrite <- (firstn_skipn index images).
  apply in_app_or in H. apply in_or_app. destruct H as [H | H].
  - left. exact H.
  - right. destruct (skipn index images) as [ | x rest] eqn:E.
    + change (S index) with (1 + index)%nat in H.
      rewrite <- skipn_skipn, E in H. exact H.
    + change (S index) with (1 + index)%nat in H.
      rewrite <- skipn_skipn, E in H. right. exact H.
Qed.

Lemma removeImage_urls_NoDup (index : nat) (images : list ImageFile) :
  NoDup (map url images) -> NoDup (map url (removeImage index images)).
Proof.
  intros H. rewrite removeImage_split.
  destruct (nth_error images index) as [x | ] eqn:E.
  - rewrite <- (firstn_skipn_middle index images E) in H.
    rewrite map_app in H. cbn [map] in H. apply NoDup_remove_1 in H.
    rewrite map_app. exact H.
  - apply nth_error_None in E.
    rewrite firstn_all2 by exact E. rewrite skipn_all2 by lia.
    rewrite app_nil_r. exact H.
Qed.

(** X26. If the platform never mints the same URL twice, every selected
    image keeps a URL of its own: adding files and removing an image both
    preserve that no two images of the list share a URL. *)
Theorem urls_stay_distinct (mint : nat -> string) (next : nat)
    (prev : list ImageFile) (files : list File) (index : nat) :
  (forall a b, mint a = mint b -> a = b) ->
  urlsDistinct mint next prev ->
  let result := addImages mint next prev files in
  urlsDistinct mint (snd result) (fst result)
  /\ urlsDistinct mint (snd result) (removeImage index (fst result)).
Proof.
  intros Inj [D M]. cbv zeta. rewrite addImages_unfold. cbn [fst snd].
  set (new := filter isImage files).
  assert (urlsDistinct mint (snd (createObjectURLs mint next new))
            (prev ++ fst (createObjectURLs mint next new))) as A.
  { rewrite createObjectURLs_next. split.
    - rewrite map_app, createObjectURLs_urls. apply NoDup_app.
      + exact D.
      + apply NoDup_map_NoDup_ForallPairs; [ | apply seq_NoDup].
        intros a b _ _ E. apply Inj. exact E.
      + intros u Hu Hn. apply in_map_iff in Hu. destruct Hu as (img & <- & I).
        destruct (M img I) as (k & K & E). rewrite E in Hn.
        apply in_map_iff in Hn. destruct Hn as (k' & E' & I').
        apply Inj in E'. apply in_seq in I'. lia.
    - intros img I. apply in_app_or in I. destruct I as [I | I].
      + destruct (M img I) as (k & K & E). exists k. split; [lia | exact E].
      + apply (in_map url) in I. rewrite createObjectURLs_urls in I.
        apply in_map_iff in I. destruct I as (k & E & I).
        apply in_seq in I. exists k. split; [lia | symmetry; exact E]. }
  split; [exact A | ]. destruct A as [D' M']. split.
  - apply removeImage_urls_NoDup. exact D'.
  - intros img I. apply M'. apply (removeImage_incl index _ img I).
Qed.

Lemma marks_injective (a : nat) : forall b, marks a = marks b -> a = b.
Proof.
  induction a as [ | a IH]; intros [ | b] E; cbn [marks] in E.
  - reflexivity.
  - discriminate E.
  - discriminate E.
  - injection E as E. f_equal. apply IH. exact E.
Qed.

Lemma sampleMint_injective (a b : nat) : sampleMint a = sampleMint b -> a = b.
Proof.
  unfold sampleMint. cbn [String.append]. intros E. injection E as E.
  apply marks_injective. exact E.
Qed.

Lemma urls_stay_distinct_witness :
  let prev := [mkImageFile scan (sampleMint 0)] in
  let result := addImages sampleMint 1 prev [photo; notes; photo] in
  urlsDistinct sampleMint (snd result) (fst result)
  /\ urlsDistinct sampleMint (snd result) (removeImage 1 (fst result)).
Proof.
  apply (urls_stay_distinct sampleMint 1 [mkImageFile scan (sampleMint 0)]
           [photo; notes; photo] 1).
  - exact sampleMint_injective.
  - split.
    + repeat constructor. intros [].
    + intros img [<- | []]. exists 0%nat. split; [lia | reflexivity].
Defined.

(** ** The drop area highlight *)

Lemma classList_remove_absent (c : string) (classes : list string) :
  ~ In c classes -> classList_remove c classes = classes.
Proof.
  induction classes as [ | c' classes IH]; intros H; [reflexivity | ].
  cbn [classList_remove filter].
  assert (String.eqb c c' = false) as E.
  { apply String.eqb_neq. intros ->. apply H. left. reflexivity. }
  rewrite E. cbn [negb]. f_equal. apply IH.
  intros I. apply H. right. exact I.
Qed.

Lemma classList_remove_gone (c : string) (classes : list string) :
  ~ In c (classList_remove c classes).
Proof.
  unfold classList_remove. intros H. apply filter_In in H.
  destruct H as [_ H]. rewrite String.eqb_refl in H. discriminate H.
Qed.

Lemma classList_add_absent (c : string) (classes : list string) :
  ~ In c classes -> classList_add c classes = classes ++ [c].
Proof.
  intros H. unfold classList_add.
  destruct (existsb (String.eqb c) classes) eqn:E; [ | reflexivity].
  apply existsb_exists in E. destruct E as (c' & I & E).
  apply String.eqb_eq in E. subst c'. contradiction.
Qed.

(** X27. The highlight of the drop area: dragging over sets it once, leaving
    takes the class list back to what it was, and after a drop it is gone,
    whatever was dropped. *)
Theorem highlight_round_trip (classes : list string) :
  ~ In "dragover"%string classes ->
  In "dragover"%string (handleDragOver classes)
  /\ handleDragOver (handleDragOver classes) = handleDragOver classes
  /\ handleDragLeave (handleDragOver classes) = classes
  /\ forall mint next prev dropped,
       ~ In "dragover"%string
           (fst (handleDrop mint next (handleDragOver classes) prev dropped)).
Proof.
  intros H. unfold handleDragOver, handleDragLeave, handleDrop.
  rewrite (classList_add_absent _ _ H).
  split; [apply in_or_app; right; left; reflexivity | ]. split; [ | split].
  - unfold classList_add.
    assert (existsb (String.eqb "dragover") (classes ++ ["dragover"%string])
            = true) as E.
    { apply existsb_exists. exists "dragover"%string.
      split; [apply in_or_app; right; left; reflexivity | reflexivity]. }
    rewrite E. reflexivity.
  - unfold classList_remove. rewrite filter_app. cbn [filter].
    change (String.eqb "dragover" "dragover") with true. cbn [negb].
    rewrite app_nil_r. apply (classList_remove_absent _ _ H).
  - intros mint next prev dropped. cbn [fst]. apply classList_remove_gone.
Qed.

Lemma highlight_round_trip_witness :
  In "dragover"%string (handleDragOver ["upload-area"%string])
  /\ handleDragOver (handleDragOver ["upload-area"%string])
     = handleDragOver ["upload-area"%string]
  /\ handleDragLeave (handleDragOver ["upload-area"%string])
     = ["upload-area"%string]
  /\ forall mint next prev dropped,
       ~ In "dragover"%string
           (fst (handleDrop mint next (handleDragOver ["upload-area"%string])
                   prev dropped)).
Proof.
  apply (highlight_round_trip ["upload-area"%string]).
  intros [E | []]. discriminate E.
Defined.
